(** * Groove music player: the playback/state controller of [MusicPlayer]

    A shallow embedding of the controller class of [src/js/app.js] and of
    its caching variant [src/unnamed/part_001].  The object's fields become
    a record that every method takes and returns; the browser's durable
    store [localStorage] is a finite map from keys to texts; the clock
    ([Date.now()]) and the outcomes of asynchronous platform calls are
    arguments of the handlers that consume them.  DOM rendering (with
    [currentView]), toasts, the wake lock and the media-session metadata
    are not modelled: no method below reads them back.  The [play] and
    [pause] listeners of the audio element, which maintain [isPlaying],
    are not modelled either: [isPlaying] is whatever they left.

    Arrays are lists: [songs] and [filteredSongs] are only ever replaced
    as a whole, so the alias [currentPlaylist = filteredSongs] is a copy
    of the value; the one in-place update seen through an alias, on the
    [songs] of a playlist object, is written out in [addToPlaylist].
    Strings are Rocq byte strings; [===] on strings is Leibniz equality;
    the text of an integer ([Date.now().toString()]) is [pretty]. *)

From Stdlib Require Import ZArith QArith Qminmax Ascii.
From stdpp Require Import base option list sorting strings gmap pretty.

#[local] Open Scope Z_scope.

(** ** Data model *)

(** An entry of [songs.json]: [{id, title, artist, coverArt, audioSrc}]. *)
Module Song.
Record t : Type := mk
  { id : string; title : string; artist : string;
    coverArt : string; audioSrc : string }.

#[export] Instance eq_dec : EqDecision t.
Proof. solve_decision. Defined.
End Song.

(** A user playlist as [createPlaylist] builds it: [{id, name, songs}],
    [songs] being the ordered song ids. *)
Module Playlist.
Record t : Type := mk
  { id : string; name : string; songs : list string }.

#[export] Instance eq_dec : EqDecision t.
Proof. solve_decision. Defined.

Definition with_songs (l : list string) (p : t) : t :=
  {| id := id p; name := name p; songs := l |}.
End Playlist.

(** The object [savePlaybackState] writes under ["groovePlaybackState"]. *)
Module Snapshot.
Record t : Type := mk
  { songId : string; currentTime : Q; isPlaying : bool;
    timestamp : Z; volume : Q }.
End Snapshot.

(** The single slot [{id, url}] of the temporary song cache of
    [part_001]. *)
Module CacheEntry.
Record t : Type := mk { id : string; url : string }.
End CacheEntry.

(** The part of the [Audio] element the controller writes and reads. *)
Module Audio.
Record t : Type := mk
  { src : string; paused : bool; currentTime : Q; volume : Q }.

Definition initial : t :=
  {| src := ""; paused := true; currentTime := 0%Q; volume := 1%Q |}.

Definition set_src (u : string) (a : t) : t :=
  {| src := u; paused := paused a;
     currentTime := currentTime a; volume := volume a |}.
Definition set_currentTime (q : Q) (a : t) : t :=
  {| src := src a; paused := paused a;
     currentTime := q; volume := volume a |}.
Definition set_volume (q : Q) (a : t) : t :=
  {| src := src a; paused := paused a;
     currentTime := currentTime a; volume := q |}.
(** [audio.pause()] and [audio.play()]: only the [paused] attribute. *)
Definition pause (a : t) : t :=
  {| src := src a; paused := true;
     currentTime := currentTime a; volume := volume a |}.
Definition play (a : t) : t :=
  {| src := src a; paused := false;
     currentTime := currentTime a; volume := volume a |}.
End Audio.

(** The fields of a [MusicPlayer] instance, with the durable store and the
    text of the error modal ([showError]). *)
Record State : Type := mkState
  { songs : list Song.t;
    filteredSongs : list Song.t;
    likedSongs : list Song.t;
    playlists : list Playlist.t;
    currentSong : option Song.t;
    currentPlaylist : list Song.t;
    currentIndex : Z;
    isPlaying : bool;
    songsLoaded : bool;
    audio : Audio.t;
    localStorage : gmap string string;
    errorModal : option string }.

Definition set_filteredSongs (v : list Song.t) (st : State) : State :=
  mkState (songs st) v (likedSongs st) (playlists st) (currentSong st)
    (currentPlaylist st) (currentIndex st) (isPlaying st) (songsLoaded st)
    (audio st) (localStorage st) (errorModal st).
Definition set_likedSongs (v : list Song.t) (st : State) : State :=
  mkState (songs st) (filteredSongs st) v (playlists st) (currentSong st)
    (currentPlaylist st) (currentIndex st) (isPlaying st) (songsLoaded st)
    (audio st) (localStorage st) (errorModal st).
Definition set_playlists (v : list Playlist.t) (st : State) : State :=
  mkState (songs st) (filteredSongs st) (likedSongs st) v (currentSong st)
    (currentPlaylist st) (currentIndex st) (isPlaying st) (songsLoaded st)
    (audio st) (localStorage st) (errorModal st).
Definition set_currentSong (v : option Song.t) (st : State) : State :=
  mkState (songs st) (filteredSongs st) (likedSongs st) (playlists st) v
    (currentPlaylist st) (currentIndex st) (isPlaying st) (songsLoaded st)
    (audio st) (localStorage st) (errorModal st).
Definition set_currentPlaylist (v : list Song.t) (st : State) : State :=
  mkState (songs st) (filteredSongs st) (likedSongs st) (playlists st)
    (currentSong st) v (currentIndex st) (isPlaying st) (songsLoaded st)
    (audio st) (localStorage st) (errorModal st).
Definition set_currentIndex (v : Z) (st : State) : State :=
  mkState (songs st) (filteredSongs st) (likedSongs st) (playlists st)
    (currentSong st) (currentPlaylist st) v (isPlaying st) (songsLoaded st)
    (audio st) (localStorage st) (errorModal st).
Definition set_audio (v : Audio.t) (st : State) : State :=
  mkState (songs st) (filteredSongs st) (likedSongs st) (playlists st)
    (currentSong st) (currentPlaylist st) (currentIndex st) (isPlaying st)
    (songsLoaded st) v (localStorage st) (errorModal st).
Definition set_localStorage (v : gmap string string) (st : State) : State :=
  mkState (songs st) (filteredSongs st) (likedSongs st) (playlists st)
    (currentSong st) (currentPlaylist st) (currentIndex st) (isPlaying st)
    (songsLoaded st) (audio st) v (errorModal st).

(** [showError(message)]: the message goes to the error modal. *)
Definition showError (message : string) (st : State) : State :=
  mkState (songs st) (filteredSongs st) (likedSongs st) (playlists st)
    (currentSong st) (currentPlaylist st) (currentIndex st) (isPlaying st)
    (songsLoaded st) (audio st) (localStorage st) (Some message).

(** ** Array methods *)

(** [arr.find(P)]: the first element satisfying [P], or [undefined]. *)
Definition find {A} (P : A → Prop) `{∀ x, Decision (P x)}
    (l : list A) : option A :=
  snd <$> list_find P l.

(** [arr.findIndex(P)]: the first index whose element satisfies [P], or
    [-1]. *)
Definition findIndex {A} (P : A → Prop) `{∀ x, Decision (P x)}
    (l : list A) : Z :=
  from_option (λ r, Z.of_nat (fst r)) (-1) (list_find P l).

(** [arr.some(P)]. *)
Definition some {A} (P : A → Prop) `{∀ x, Decision (P x)}
    (l : list A) : bool :=
  bool_decide (Exists P l).

(** [arr.includes(x)]. *)
Definition includes {A} `{EqDecision A} (x : A) (l : list A) : bool :=
  bool_decide (x ∈ l).

(** [arr[i]] for a number [i]: [undefined] outside [0 .. length-1]. *)
Definition at_index {A} (l : list A) (i : Z) : option A :=
  if bool_decide (0 ≤ i) then l !! Z.to_nat i else None.

(** [hay.includes(needle)] on strings: [needle] occurs in [hay]. *)
Fixpoint str_includes (needle hay : string) : bool :=
  String.prefix needle hay ||
  match hay with
  | EmptyString => false
  | String _ rest => str_includes needle rest
  end.

(** ** The host platform

    [JSON.stringify] and [JSON.parse] at the type of each persisted value
    ([JSON_parse] is [None] when the text is rejected with a
    [SyntaxError]; the controller is the only writer of its keys, so a
    text that parses is read at the type it was written at), and the two
    string methods the controller calls.  The controller is defined for
    any host. *)
Class JSON (A : Type) : Type :=
  { JSON_stringify : A → string;
    JSON_parse : string → option A }.

Class StringMethods : Type :=
  { toLowerCase : string → string;
    trim : string → string }.

(** What a handler raised. *)
Inductive Error : Type := SyntaxError | TypeError.

(** How a call ends: it returns, or an exception escapes it; either way the
    instance is left in some state. *)
Inductive completion : Type :=
  | Returned (st : State)
  | Raised (e : Error) (st : State).

(** Which exit [createPlaylist] took. *)
Inductive CreateOutcome : Type := EmptyName | DuplicateName | Created.

Section Controller.
Context {json_songs : JSON (list Song.t)}
        {json_playlists : JSON (list Playlist.t)}
        {json_snapshot : JSON Snapshot.t}
        {json_cache : JSON CacheEntry.t}
        {string_methods : StringMethods}.

(** *** Library state *)

Definition saveData (st : State) : State :=
  set_localStorage
    (<["groovePlaylists" := JSON_stringify (playlists st)]>
       (<["grooveLikedSongs" := JSON_stringify (likedSongs st)]>
          (localStorage st)))
    st.

(** Both collections are in the store as [saveData] writes them. *)
Definition persisted (st : State) : Prop :=
  localStorage st !! "grooveLikedSongs"
    = Some (JSON_stringify (likedSongs st)) ∧
  localStorage st !! "groovePlaylists"
    = Some (JSON_stringify (playlists st)).

Definition toggleSongLike (st : State) (songId : string) : State :=
  match find (λ s, Song.id s = songId) (songs st) with
  | None => st
  | Some song =>
      let isLiked := some (λ s, Song.id s = songId) (likedSongs st) in
      let liked :=
        if isLiked
        then filter (λ s, Song.id s ≠ songId) (likedSongs st)
        else likedSongs st ++ [song] in
      saveData (set_likedSongs liked st)
  end.

(** [toggleLike()]: the like button of the player. *)
Definition toggleLike (st : State) : State :=
  match currentSong st with
  | None => st
  | Some song => toggleSongLike st (Song.id song)
  end.

(** [createPlaylist()], [input] being the value of the name field and
    [now] the value of [Date.now()]. *)
Definition createPlaylist (st : State) (input : string) (now : Z)
    : State * CreateOutcome :=
  let name := trim input in
  if bool_decide (name = "") then (st, EmptyName)
  else if some (λ p, toLowerCase (Playlist.name p) = toLowerCase name)
            (playlists st)
  then (showError "A playlist with this name already exists" st,
        DuplicateName)
  else
    let playlist :=
      {| Playlist.id := pretty now; Playlist.name := name;
         Playlist.songs := [] |} in
    (saveData (set_playlists (playlists st ++ [playlist]) st), Created).

Definition deletePlaylist (st : State) (playlistId : string) : State :=
  saveData
    (set_playlists
       (filter (λ p, Playlist.id p ≠ playlistId) (playlists st)) st).

(** [playlists.find(...)] yields the playlist object itself, so the
    assignment to its [songs] is seen through [this.playlists]: the
    entry at the index found is altered in place. *)
Definition addToPlaylist (st : State) (playlistId songId : string)
    : State :=
  match list_find (λ p, Playlist.id p = playlistId) (playlists st),
        find (λ s, Song.id s = songId) (songs st) with
  | Some (i, playlist), Some song =>
      if includes songId (Playlist.songs playlist) then st
      else
        saveData
          (set_playlists
             (alter (Playlist.with_songs
                       (Playlist.songs playlist ++ [songId]))
                i (playlists st))
             st)
  | _, _ => st
  end.

Definition removeFromPlaylist (st : State) (playlistId songId : string)
    : State :=
  match list_find (λ p, Playlist.id p = playlistId) (playlists st),
        find (λ s, Song.id s = songId) (songs st) with
  | Some (i, playlist), Some song =>
      saveData
        (set_playlists
           (alter (Playlist.with_songs
                     (filter (λ s, s ≠ songId) (Playlist.songs playlist)))
              i (playlists st))
           st)
  | _, _ => st
  end.

(** A run of [addToPlaylist] calls, each a pair of a playlist id and a
    song id, and a run of [createPlaylist] calls, each a pair of the
    typed name and the clock value. *)
Definition addAllToPlaylist (st : State) (calls : list (string * string))
    : State :=
  foldl (λ s c, addToPlaylist s c.1 c.2) st calls.

Definition createAllPlaylists (st : State) (calls : list (string * Z))
    : State :=
  foldl (λ s c, (createPlaylist s c.1 c.2).1) st calls.

(** *** Search *)

Definition handleSearch (st : State) (query : string) : State :=
  if bool_decide (trim query = "") then set_filteredSongs (songs st) st
  else
    set_filteredSongs
      (filter
         (λ song,
            Is_true
              (str_includes (toLowerCase query)
                 (toLowerCase (Song.title song))
               || str_includes (toLowerCase query)
                    (toLowerCase (Song.artist song))))
         (songs st))
      st.

(** *** Playback, [src/js/app.js] *)

(** The list [playSong] navigates in:
    [filteredSongs.length > 0 ? filteredSongs : songs]. *)
Definition selected (st : State) : list Song.t :=
  if bool_decide (0 < length (filteredSongs st))%nat
  then filteredSongs st else songs st.

(** [playSong(song)] up to the call of [audio.play()]; the promise it
    returns is settled later, see [playSettled]. *)
Definition playSong (st : State) (song : Song.t) : State :=
  let playlist := selected st in
  let st1 :=
    set_currentIndex
      (findIndex (λ s, Song.id s = Song.id song) playlist)
      (set_currentPlaylist playlist (set_currentSong (Some song) st)) in
  set_audio
    (Audio.play
       (Audio.set_src (Song.audioSrc song)
          (Audio.set_currentTime 0%Q (Audio.pause (audio st1)))))
    st1.

(** [playSong(undefined)]: the assignments made before the read of a
    property of [song] raises [TypeError].  With a non-empty list that
    read is in the callback of [findIndex]; with an empty one it is
    [song.audioSrc]. *)
Definition playSong_undefined (st : State) : completion :=
  let playlist := selected st in
  let st1 := set_currentPlaylist playlist (set_currentSong None st) in
  match playlist with
  | [] =>
      Raised TypeError
        (set_audio (Audio.set_currentTime 0%Q (Audio.pause (audio st1)))
           (set_currentIndex (-1) st1))
  | _ :: _ => Raised TypeError st1
  end.

(** The invariant of the playback session: the current song sits at
    the current index of the current playlist. *)
Definition consistent (st : State) : Prop :=
  ∀ song, currentSong st = Some song →
    0 ≤ currentIndex st < Z.of_nat (length (currentPlaylist st)) ∧
    at_index (currentPlaylist st) (currentIndex st) = Some song.

(** [x || d] on numbers: [d] when [x] is zero. *)
Definition number_or (x d : Q) : Q := if Qeq_bool x 0 then d else x.

(** [savePlaybackState()], [now] being [Date.now()]. *)
Definition savePlaybackState (st : State) (now : Z) : State :=
  match currentSong st with
  | None => st
  | Some song =>
      let state :=
        {| Snapshot.songId := Song.id song;
           Snapshot.currentTime :=
             number_or (Audio.currentTime (audio st)) 0%Q;
           Snapshot.isPlaying :=
             isPlaying st && negb (Audio.paused (audio st));
           Snapshot.timestamp := now;
           Snapshot.volume := Audio.volume (audio st) |} in
      set_localStorage
        (<["groovePlaybackState" := JSON_stringify state]>
           (localStorage st))
        st
  end.

(** How the promise of [audio.play()] settles. *)
Inductive PlayResult : Type :=
  | Started | NotAllowedError | PlaybackFailed.

(** The [then] and [catch] callbacks of [playSong]. *)
Definition playSettled (st : State) (r : PlayResult) (now : Z) : State :=
  match r with
  | Started => savePlaybackState st now
  | NotAllowedError =>
      showError
        "Please tap the play button to start audio. Browser requires user interaction for autoplay."
        st
  | PlaybackFailed =>
      showError
        "Unable to play this song. Please check your internet connection or try another song."
        st
  end.

Definition previousSong (st : State) : completion :=
  let n := Z.of_nat (length (currentPlaylist st)) in
  if bool_decide (n = 0) then Returned st
  else
    let st1 := set_currentIndex (Z.rem (currentIndex st - 1 + n) n) st in
    match at_index (currentPlaylist st1) (currentIndex st1) with
    | Some song => Returned (playSong st1 song)
    | None => playSong_undefined st1
    end.

Definition nextSong (st : State) : completion :=
  let n := Z.of_nat (length (currentPlaylist st)) in
  if bool_decide (n = 0) then Returned st
  else
    let st1 := set_currentIndex (Z.rem (currentIndex st + 1) n) st in
    match at_index (currentPlaylist st1) (currentIndex st1) with
    | Some song => Returned (playSong st1 song)
    | None => playSong_undefined st1
    end.

(** [k] presses of next, stopping at the first exception. *)
Fixpoint nextSongs (k : nat) (st : State) : completion :=
  match k with
  | O => Returned st
  | S k' =>
      match nextSong st with
      | Returned st' => nextSongs k' st'
      | Raised e st' => Raised e st'
      end
  end.

(** *** Session bridge, [src/js/app.js] *)

(** Which exit [resumePlaybackIfNeeded] took. *)
Inductive ResumeOutcome : Type :=
  | NotLoaded
  | NoSavedState
  | ParseFailed
  | GateClosed
  | ResumeSong (song : Song.t) (state : Snapshot.t)
  | ResumeCurrent
  | NothingToResume.

(** The exits on which [audio.play()] is called, at once or by the
    listener. *)
Definition attempted (o : ResumeOutcome) : bool :=
  match o with
  | ResumeSong _ _ | ResumeCurrent => true
  | _ => false
  end.

(** The exits behind the freshness gate. *)
Definition gate_passed (o : ResumeOutcome) : bool :=
  match o with
  | ResumeSong _ _ | ResumeCurrent | NothingToResume => true
  | _ => false
  end.

(** Behind the freshness gate: a catalog song other than the current
    one is installed and a one-shot [loadedmetadata] listener is
    registered ([ResumeSong], run by [handleLoadedMetadata]); else a
    current song that is paused while [isPlaying] is set is played. *)
Definition resumeBehindGate (st : State) (state : Snapshot.t)
    : State * ResumeOutcome :=
  let resumeCurrent :=
    if bool_decide (is_Some (currentSong st))
       && Audio.paused (audio st) && isPlaying st
    then (set_audio (Audio.play (audio st)) st, ResumeCurrent)
    else (st, NothingToResume) in
  match find (λ s, Song.id s = Snapshot.songId state) (songs st) with
  | Some song =>
      if bool_decide (Song.id <$> currentSong st ≠ Some (Song.id song))
      then
        let st1 := set_currentSong (Some song) st in
        (set_audio
           (Audio.set_volume (number_or (Snapshot.volume state) 1%Q)
              (Audio.set_src (Song.audioSrc song) (audio st1)))
           st1,
         ResumeSong song state)
      else resumeCurrent
  | None => resumeCurrent
  end.

(** [resumePlaybackIfNeeded()], [now] being [Date.now()].  A
    [SyntaxError] of [JSON.parse] is caught by the [try] block. *)
Definition resumePlaybackIfNeeded (st : State) (now : Z)
    : State * ResumeOutcome :=
  if negb (songsLoaded st) || bool_decide (length (songs st) = 0%nat)
  then (st, NotLoaded)
  else
    match localStorage st !! "groovePlaybackState" with
    | None => (st, NoSavedState)
    | Some savedState =>
        if bool_decide (savedState = "") then (st, NoSavedState)
        else
          match JSON_parse savedState with
          | None => (st, ParseFailed)
          | Some state =>
              let timeSinceLastSave := now - Snapshot.timestamp state in
              if bool_decide (timeSinceLastSave < 300000)
                 && Snapshot.isPlaying state
              then resumeBehindGate st state
              else (st, GateClosed)
          end
    end.

(** The listener registered by [ResumeSong], once the duration of the
    new source is known. *)
Definition handleLoadedMetadata (st : State) (state : Snapshot.t)
    (duration : Q) : State :=
  set_audio
    (Audio.play
       (Audio.set_currentTime
          (Qmin (Snapshot.currentTime state) duration) (audio st)))
    st.

(** [handleWindowFocus()] arms a 100 ms timer only once the songs are
    loaded; [focusTimerFired] is its callback ([requestWakeLock] left
    out). *)
Definition handleWindowFocus (st : State) : bool := songsLoaded st.

Definition focusTimerFired (st : State) (now : Z)
    : State * ResumeOutcome :=
  resumePlaybackIfNeeded st now.

Definition handleWindowBlur (st : State) (now : Z) : State :=
  savePlaybackState st now.

(** *** Startup *)

(** [JSON.parse(localStorage.getItem(key) || "[]")]: a missing key and
    the empty text are both falsy. *)
Definition parseStored {A} `{JSON A} (store : gmap string string)
    (key : string) : option A :=
  match store !! key with
  | None => JSON_parse "[]"
  | Some text =>
      if bool_decide (text = "") then JSON_parse "[]" else JSON_parse text
  end.

(** The field initialisers of the constructor.  Nothing catches a
    [SyntaxError] of [JSON.parse] here: it escapes the constructor and
    no instance exists. *)
Definition construct (store : gmap string string) : Error + State :=
  match parseStored store "grooveLikedSongs" with
  | None => inl SyntaxError
  | Some liked =>
      match parseStored store "groovePlaylists" with
      | None => inl SyntaxError
      | Some lists =>
          inr (mkState [] [] liked lists None [] 0 false false
                 Audio.initial store None)
      end
  end.

(** The end of [loadSongs()]: the catalog fetched, or the fetch or its
    decoding failed; then the flag is set. *)
Definition songsFetched (st : State) (r : option (list Song.t)) : State :=
  let st1 :=
    match r with
    | Some catalog => st
    | None =>
        showError
          "Failed to load music library. Please check your connection and refresh the page."
          st
    end in
  let catalog := default [] r in
  mkState catalog catalog (likedSongs st1) (playlists st1)
    (currentSong st1) (currentPlaylist st1) (currentIndex st1)
    (isPlaying st1) true (audio st1) (localStorage st1) (errorModal st1).

End Controller.

(** ** Playback in the caching variant, [src/unnamed/part_001]

    [playSong] is [async]: it runs up to [await fetch(song.audioSrc)] and
    gives control back; [fetchSettled] is the rest of its body, run when
    the fetch of that call is over.  Nothing orders the settlements of
    two calls. *)
Module Cached.
Section Controller.
Context {json_cache : JSON CacheEntry.t}.

Definition tempSongCacheKey : string := "grooveTempSongCache".

(** The [catch] block of [playSong]. *)
Definition fallback (st : State) (song : Song.t) : State :=
  let st1 := showError "Failed to load audio. Please check the song URL." st in
  set_audio (Audio.play (Audio.set_src (Song.audioSrc song) (audio st1)))
    st1.

(** Where the synchronous part of [playSong] stops. *)
Inductive Progress : Type :=
  | Playing           (* a source was assigned and [play()] called *)
  | Fetching.         (* suspended at [await fetch(song.audioSrc)] *)

Definition playSong (st : State) (song : Song.t) : State * Progress :=
  let playlist :=
    if bool_decide (0 < length (filteredSongs st))%nat
    then filteredSongs st else songs st in
  let st1 :=
    set_currentIndex
      (findIndex (λ s, Song.id s = Song.id song) playlist)
      (set_currentPlaylist playlist (set_currentSong (Some song) st)) in
  match localStorage st1 !! tempSongCacheKey with
  | None => (st1, Fetching)
  | Some audioData =>
      if bool_decide (audioData = "") then (st1, Fetching)
      else
        match JSON_parse audioData with
        | None => (fallback st1 song, Playing)
        | Some entry =>
            if bool_decide (CacheEntry.id entry = Song.id song)
            then
              (set_audio
                 (Audio.play
                    (Audio.set_src (CacheEntry.url entry) (audio st1)))
                 st1,
               Playing)
            else (st1, Fetching)
        end
  end.

(** The rest of [playSong(song)] after the [await]: [Some objectUrl]
    when the response was fetched and read, [None] when the fetch, the
    status check or the read failed. *)
Definition fetchSettled (st : State) (song : Song.t)
    (r : option string) : State :=
  match r with
  | Some objectUrl =>
      let st1 :=
        set_localStorage
          (<[tempSongCacheKey :=
               JSON_stringify
                 {| CacheEntry.id := Song.id song;
                    CacheEntry.url := objectUrl |}]>
             (localStorage st))
          st in
      set_audio (Audio.play (Audio.set_src objectUrl (audio st1))) st1
  | None => fallback st song
  end.

End Controller.
End Cached.

(** ** Transport, detail view and input routing, [src/js/app.js] *)

Section Routing.
Context {json_songs : JSON (list Song.t)}
        {json_playlists : JSON (list Playlist.t)}
        {json_snapshot : JSON Snapshot.t}
        {string_methods : StringMethods}.

(** [togglePlayPause()] up to the call of [audio.play()]; when that
    promise is rejected the [catch] callback is [playRejected]. *)
Definition togglePlayPause (st : State) : State :=
  match currentSong st with
  | None => st
  | Some _ =>
      if Audio.paused (audio st)
      then set_audio (Audio.play (audio st)) st
      else set_audio (Audio.pause (audio st)) st
  end.

Definition playRejected (st : State) : State :=
  showError "Playback failed. Please try again." st.

(** The songs [showPlaylistDetail(playlist)] renders:
    [playlist.songs.map((id) => songs.find((s) => s.id === id))
       .filter(Boolean)]. *)
Definition playlistSongs (st : State) (playlist : Playlist.t)
    : list Song.t :=
  omap (λ id, find (λ s, Song.id s = id) (songs st))
    (Playlist.songs playlist).

(** The click on an option of the add-to-playlist modal.  [inPlaylist]
    was computed when the option was rendered; the song is the current
    one at the time of the click, and reading its [id] raises when there
    is none. *)
Definition optionClicked (st : State) (playlist : Playlist.t)
    (inPlaylist : bool) : completion :=
  match currentSong st with
  | None => Raised TypeError st
  | Some song =>
      if inPlaylist
      then Returned
             (removeFromPlaylist st (Playlist.id playlist) (Song.id song))
      else Returned
             (addToPlaylist st (Playlist.id playlist) (Song.id song))
  end.

(** The flag [showAddToPlaylistModal()] computes for an option. *)
Definition optionFlag (st : State) (playlist : Playlist.t) : bool :=
  match currentSong st with
  | None => false
  | Some song => includes (Song.id song) (Playlist.songs playlist)
  end.

(** [handleVisibilityChange()]: the state, and whether the focus timer
    was armed. *)
Definition handleVisibilityChange (st : State) (visible : bool) (now : Z)
    : State * bool :=
  if visible then (st, handleWindowFocus st)
  else (savePlaybackState st now, false).

(** [handleKeyboard(e)], [tagName] being [e.target.tagName] and [code]
    being [e.code]. *)
Definition handleKeyboard (st : State) (tagName code : string)
    : completion :=
  if bool_decide (tagName = "INPUT") then Returned st
  else if bool_decide (code = "Space") then Returned (togglePlayPause st)
  else if bool_decide (code = "ArrowRight") then nextSong st
  else if bool_decide (code = "ArrowLeft") then previousSong st
  else if bool_decide (code = "KeyL") then Returned (toggleLike st)
  else Returned st.

(** The action handlers [setupMediaSession()] registers, but for
    [seekto]. *)
Definition mediaSessionAction (st : State) (action : string) : completion :=
  if bool_decide (action = "play") then Returned (togglePlayPause st)
  else if bool_decide (action = "pause") then Returned (togglePlayPause st)
  else if bool_decide (action = "previoustrack") then previousSong st
  else if bool_decide (action = "nexttrack") then nextSong st
  else Returned st.

(** The inputs the controller reacts to once the catalog is loaded, each
    with the handler it is wired to. *)
Inductive Event : Type :=
  | SongClicked (song : Song.t)
  | LikeClicked (songId : string)
  | LikeButtonClicked
  | PlayButtonClicked
  | PreviousClicked
  | NextClicked
  | KeyDown (tagName code : string)
  | MediaSession (action : string)
  | AudioEnded
  | SearchInput (query : string)
  | CreatePlaylist (input : string) (now : Z)
  | DeletePlaylist (playlistId : string)
  | AddToPlaylist (playlistId songId : string)
  | RemoveFromPlaylist (playlistId songId : string)
  | FocusTimer (now : Z)
  | WindowBlur (now : Z)
  | PlaySettled (r : PlayResult) (now : Z)
  | PlayRejected.

Definition dispatch (st : State) (ev : Event) : completion :=
  match ev with
  | SongClicked song => Returned (playSong st song)
  | LikeClicked songId => Returned (toggleSongLike st songId)
  | LikeButtonClicked => Returned (toggleLike st)
  | PlayButtonClicked => Returned (togglePlayPause st)
  | PreviousClicked => previousSong st
  | NextClicked => nextSong st
  | KeyDown tagName code => handleKeyboard st tagName code
  | MediaSession action => mediaSessionAction st action
  | AudioEnded => nextSong st
  | SearchInput query => Returned (handleSearch st query)
  | CreatePlaylist input now => Returned (createPlaylist st input now).1
  | DeletePlaylist playlistId => Returned (deletePlaylist st playlistId)
  | AddToPlaylist playlistId songId =>
      Returned (addToPlaylist st playlistId songId)
  | RemoveFromPlaylist playlistId songId =>
      Returned (removeFromPlaylist st playlistId songId)
  | FocusTimer now => Returned (focusTimerFired st now).1
  | WindowBlur now => Returned (handleWindowBlur st now)
  | PlaySettled r now => Returned (playSettled st r now)
  | PlayRejected => Returned (playRejected st)
  end.

(** The state a call leaves the instance in. *)
Definition state_of (c : completion) : State :=
  match c with
  | Returned st => st
  | Raised _ st => st
  end.

(** The handlers run one after the other; an exception ends the handler
    that raised it, not the page, so the run goes on from the state it
    left. *)
Fixpoint run (st : State) (events : list Event) : State :=
  match events with
  | [] => st
  | ev :: rest => run (state_of (dispatch st ev)) rest
  end.

(** Whether some handler of the run raised. *)
Fixpoint raises (st : State) (events : list Event) : bool :=
  match events with
  | [] => false
  | ev :: rest =>
      match dispatch st ev with
      | Returned st' => raises st' rest
      | Raised _ _ => true
      end
  end.

(** The library is well formed: playlist names differ even up to case,
    liked songs are catalog songs with distinct ids, and every playlist
    lists catalog ids without repetition. *)
Definition names_distinct (st : State) : Prop :=
  NoDup ((λ p, toLowerCase (Playlist.name p)) <$> playlists st).

Definition liked_wf (st : State) : Prop :=
  NoDup (Song.id <$> likedSongs st) ∧
  ∀ s, s ∈ likedSongs st → s ∈ songs st.

Definition tracks_wf (st : State) : Prop :=
  ∀ p, p ∈ playlists st →
    NoDup (Playlist.songs p) ∧
    ∀ songId, songId ∈ Playlist.songs p → songId ∈ Song.id <$> songs st.

(** The catalog, the two collections and their two keys in the store. *)
Definition library_of (st : State)
    : list Song.t * list Song.t * list Playlist.t
      * option string * option string :=
  (songs st, likedSongs st, playlists st,
   localStorage st !! "grooveLikedSongs",
   localStorage st !! "groovePlaylists").

End Routing.

(** ** The service worker, [src/unnamed/part_000]

    A request is a [GET] with the parts of [new URL(request.url)] the
    handler reads; a response is its status and body.  The cache storage
    is the list of named caches in creation order, each a map from
    request URLs to responses; names are pairwise distinct.  What the
    network answers ([None] when [fetch] rejects) is an argument of the
    handler. *)
Module ServiceWorker.

Record Request : Type := mkRequest
  { url : string; origin : string; pathname : string;
    destination : string }.

Record Response : Type := mkResponse { status : Z; body : string }.

Abbreviation Cache := (gmap string Response).
Abbreviation CacheStorage := (list (string * gmap string Response)).

Definition STATIC_CACHE : string := "groove-static-v1.0.0".
Definition DYNAMIC_CACHE : string := "groove-dynamic-v1.0.0".

Definition STATIC_FILES : list string :=
  [ "/"; "/index.html"; "/css/styles.css"; "/js/app.js"; "/songs.json";
    "/manifest.json";
    "https://cdn.tailwindcss.com";
    "https://cdnjs.cloudflare.com/ajax/libs/font-awesome/6.4.0/css/all.min.css";
    "https://fonts.googleapis.com/css2?family=Inter:wght@300;400;500;600;700;800&display=swap" ].

(** [caches.match(request)]: the first cache, in creation order, that
    holds the URL. *)
Fixpoint cachesMatch (caches : CacheStorage) (u : string)
    : option Response :=
  match caches with
  | [] => None
  | (_, cache) :: rest =>
      match cache !! u with
      | Some r => Some r
      | None => cachesMatch rest u
      end
  end.

(** [caches.open(name)] creates the cache when there is none. *)
Definition cachesOpen (name : string) (caches : CacheStorage)
    : CacheStorage :=
  if bool_decide (name ∈ caches.*1) then caches else caches ++ [(name, ∅)].

(** [caches.open(name).then((cache) => cache.put(request, response))]. *)
Definition cachePut (name u : string) (r : Response)
    (caches : CacheStorage) : CacheStorage :=
  (λ nc : string * Cache,
     if bool_decide (nc.1 = name) then (nc.1, <[u := r]> nc.2) else nc)
    <$> cachesOpen name caches.

(** The cache of that name, if any. *)
Definition cacheNamed (name : string) (caches : CacheStorage)
    : option Cache :=
  (λ r : nat * (string * Cache), r.2.2)
    <$> list_find (λ nc : string * Cache, nc.1 = name) caches.

Definition isAudio (u : string) : bool :=
  str_includes ".mp3" u || str_includes ".wav" u || str_includes ".ogg" u
  || str_includes ".m4a" u || str_includes ".flac" u.

Section Worker.
(** [location.origin] of the worker. *)
Variable location_origin : string.

(** A URL given to the cache storage as a text is resolved against the
    worker's location. *)
Definition absolute (u : string) : string :=
  if String.prefix "/" u then location_origin +:+ u else u.

(** The [fetch] listener: the response handed to [respondWith]
    ([None] is [undefined]) and the cache storage once the [put] it may
    have started is done. *)
Definition onFetch (caches : CacheStorage) (request : Request)
    (network : option Response) : option Response * CacheStorage :=
  if isAudio (url request)
  then
    match network with
    | Some r => (Some r, caches)
    | None => (Some (mkResponse 404 "Audio file unavailable"), caches)
    end
  else
    match cachesMatch caches (url request) with
    | Some cachedResponse => (Some cachedResponse, caches)
    | None =>
        match network with
        | Some networkResponse =>
            if bool_decide (status networkResponse = 200)
               && (bool_decide (origin request ≠ location_origin)
                   || includes (pathname request) STATIC_FILES)
            then (Some networkResponse,
                  cachePut DYNAMIC_CACHE (url request) networkResponse
                    caches)
            else (Some networkResponse, caches)
        | None =>
            if bool_decide (destination request = "document")
            then (cachesMatch caches (absolute "/index.html"), caches)
            else (Some (mkResponse 503 "Offline"), caches)
        end
    end.

(** The [activate] listener: every cache but the two current ones is
    deleted. *)
Definition onActivate (caches : CacheStorage) : CacheStorage :=
  filter (λ nc : string * Cache,
            ¬ (nc.1 ≠ STATIC_CACHE ∧ nc.1 ≠ DYNAMIC_CACHE))
    caches.

(** [clearCache()]. *)
Definition clearCache (caches : CacheStorage) : CacheStorage :=
  foldl (λ acc name, filter (λ nc : string * Cache, nc.1 ≠ name) acc)
    caches (caches.*1).

(** A run of requests, each with what the network answers. *)
Definition onFetches (caches : CacheStorage)
    (requests : list (Request * option Response)) : CacheStorage :=
  foldl (λ c rn, (onFetch c rn.1 rn.2).2) caches requests.

End Worker.
End ServiceWorker.

(** ** A reference host

    One host to run the controller on closed inputs: the string methods
    on ASCII letters and blanks, and JSON texts of the persisted shapes
    (numbers are decimal literals without exponent, string escapes are
    the two-character ones and [\u00XX]).  A text whose value is not of
    the shape asked for is outside the typed model; the instances answer
    [None] for it.  The properties below are proved for every host. *)
Module Host.

Definition lower (a : ascii) : ascii :=
  let n := N_of_ascii a in
  if ((65 <=? n) && (n <=? 90))%N then ascii_of_N (n + 32) else a.

Fixpoint lowerCase (s : string) : string :=
  match s with
  | EmptyString => EmptyString
  | String a rest => String (lower a) (lowerCase rest)
  end.

Fixpoint trimStart (s : string) : string :=
  match s with
  | EmptyString => EmptyString
  | String a rest => if Ascii.is_space a then trimStart rest else s
  end.

Definition trimBoth (s : string) : string :=
  String.rev (trimStart (String.rev (trimStart s))).

#[export] Instance string_methods : StringMethods :=
  {| toLowerCase := lowerCase; trim := trimBoth |}.

(** *** JSON values *)

#[local] Unset Elimination Schemes.
Inductive json : Type :=
  | JNull
  | JBool (b : bool)
  | JNumber (q : Q)
  | JString (s : string)
  | JArray (l : list json)
  | JObject (l : list (string * json)).
#[local] Set Elimination Schemes.

Definition quote : ascii := "034"%char.
Definition backslash : ascii := "092"%char.

(** *** Printing *)

Definition hex_digit (n : N) : ascii :=
  if (n <? 10)%N then ascii_of_N (48 + n) else ascii_of_N (87 + n).

Definition escape (a : ascii) (rest : string) : string :=
  let n := N_of_ascii a in
  if decide (a = quote) then String backslash (String quote rest)
  else if decide (a = backslash)
  then String backslash (String backslash rest)
  else if decide (n = 8)%N then String backslash (String "b" rest)
  else if decide (n = 9)%N then String backslash (String "t" rest)
  else if decide (n = 10)%N then String backslash (String "n" rest)
  else if decide (n = 12)%N then String backslash (String "f" rest)
  else if decide (n = 13)%N then String backslash (String "r" rest)
  else if (n <? 32)%N
  then String backslash
         (String "u" (String "0" (String "0"
            (String (hex_digit (n / 16)) (String (hex_digit (n mod 16))
               rest)))))
  else String a rest.

Fixpoint escaped (s : string) : string :=
  match s with
  | EmptyString => EmptyString
  | String a rest => escape a (escaped rest)
  end.

Definition print_string (s : string) : string :=
  String quote (escaped s +:+ String quote EmptyString).

Fixpoint fraction_digits (fuel : nat) (r d : N) : string :=
  match fuel with
  | O => EmptyString
  | S fuel' =>
      if decide (r = 0)%N then EmptyString
      else String (ascii_of_N (48 + (r * 10) / d))
             (fraction_digits fuel' ((r * 10) mod d) d)
  end.

(** Integers in full, other rationals to 17 decimal places. *)
Definition print_number (q : Q) : string :=
  let q := Qred q in
  let d := Npos (Qden q) in
  let n := Z.abs_N (Qnum q) in
  if decide (d = 1)%N then pretty (Qnum q)
  else
    (if decide (Qnum q < 0) then "-" else EmptyString)
    +:+ pretty (n / d)%N +:+ "." +:+ fraction_digits 17 (n mod d)%N d.

Definition join (sep : string) (l : list string) : string :=
  match l with
  | [] => EmptyString
  | x :: rest => foldl (λ acc y, acc +:+ sep +:+ y) x rest
  end.

Fixpoint print (j : json) : string :=
  match j with
  | JNull => "null"
  | JBool true => "true"
  | JBool false => "false"
  | JNumber q => print_number q
  | JString s => print_string s
  | JArray l => "[" +:+ join "," (map print l) +:+ "]"
  | JObject l =>
      "{" +:+
      join "," (map (λ kv, print_string kv.1 +:+ ":" +:+ print kv.2) l)
      +:+ "}"
  end.

(** *** Reading *)

Definition is_ws (a : ascii) : bool :=
  match a with
  | "009" | "010" | "013" | " " => true
  | _ => false
  end%char.

Fixpoint skip_ws (s : string) : string :=
  match s with
  | EmptyString => EmptyString
  | String a rest => if is_ws a then skip_ws rest else s
  end.

Definition hex_value (a : ascii) : option N :=
  let n := N_of_ascii a in
  if ((48 <=? n) && (n <=? 57))%N then Some (n - 48)%N
  else if ((97 <=? n) && (n <=? 102))%N then Some (n - 87)%N
  else if ((65 <=? n) && (n <=? 70))%N then Some (n - 55)%N
  else None.

Definition unescape (c : ascii) : option ascii :=
  if decide (c = quote) then Some quote
  else if decide (c = backslash) then Some backslash
  else match c with
       | "/" => Some "/"
       | "b" => Some "008"
       | "f" => Some "012"
       | "n" => Some "010"
       | "r" => Some "013"
       | "t" => Some "009"
       | _ => None
       end%char.

(** The rest of a string literal, after its opening quote. *)
Fixpoint read_string (s acc : string) : option (string * string) :=
  match s with
  | EmptyString => None
  | String a rest =>
      if decide (a = quote) then Some (String.rev acc, rest)
      else if decide (a = backslash)
      then
        match rest with
        | String "u" (String "0" (String "0" (String h (String l rest')))) =>
            match hex_value h, hex_value l with
            | Some x, Some y =>
                read_string rest' (String (ascii_of_N (16 * x + y)) acc)
            | _, _ => None
            end
        | String c rest' =>
            match unescape c with
            | Some a' => read_string rest' (String a' acc)
            | None => None
            end
        | EmptyString => None
        end
      else if (N_of_ascii a <? 32)%N then None
      else read_string rest (String a acc)
  end.

(** A run of decimal digits: their value, their number, the rest. *)
Fixpoint read_digits (s : string) (acc : N) (count : nat)
    : N * nat * string :=
  match s with
  | EmptyString => (acc, count, s)
  | String a rest =>
      match Ascii.is_nat a with
      | Some d => read_digits rest (acc * 10 + N.of_nat d) (S count)
      | None => (acc, count, s)
      end
  end.

Definition read_number (s : string) : option (json * string) :=
  let '(negative, s1) :=
    match s with
    | String "-" rest => (true, rest)
    | _ => (false, s)
    end in
  let '(whole, k, s2) := read_digits s1 0%N 0%nat in
  if decide (k = 0%nat) then None
  else
    let sign (z : Z) := if negative : bool then - z else z in
    match s2 with
    | String "." s3 =>
        let '(frac, m, s4) := read_digits s3 0%N 0%nat in
        if decide (m = 0%nat) then None
        else
          let scale := (10 ^ N.of_nat m)%N in
          Some (JNumber
                  (Qred (Qmake (sign (Z.of_N (whole * scale + frac)))
                           (N.succ_pos (N.pred scale)))),
                s4)
    | _ => Some (JNumber (inject_Z (sign (Z.of_N whole))), s2)
    end.

Fixpoint parse_value (fuel : nat) (s : string) : option (json * string) :=
  match fuel with
  | O => None
  | S fuel' =>
      match skip_ws s with
      | String "n" (String "u" (String "l" (String "l" rest))) =>
          Some (JNull, rest)
      | String "t" (String "r" (String "u" (String "e" rest))) =>
          Some (JBool true, rest)
      | String "f" (String "a" (String "l" (String "s" (String "e" rest)))) =>
          Some (JBool false, rest)
      | String "[" rest =>
          match skip_ws rest with
          | String "]" rest' => Some (JArray [], rest')
          | _ =>
              '(l, rest') ← parse_elements fuel' rest;
              Some (JArray l, rest')
          end
      | String "{" rest =>
          match skip_ws rest with
          | String "}" rest' => Some (JObject [], rest')
          | _ =>
              '(l, rest') ← parse_members fuel' rest;
              Some (JObject l, rest')
          end
      | String a rest =>
          if decide (a = quote)
          then '(str, rest') ← read_string rest EmptyString;
               Some (JString str, rest')
          else read_number (String a rest)
      | EmptyString => None
      end
  end
with parse_elements (fuel : nat) (s : string)
    : option (list json * string) :=
  match fuel with
  | O => None
  | S fuel' =>
      '(v, rest) ← parse_value fuel' s;
      match skip_ws rest with
      | String "," rest' =>
          '(vs, rest'') ← parse_elements fuel' rest';
          Some (v :: vs, rest'')
      | String "]" rest' => Some ([v], rest')
      | _ => None
      end
  end
with parse_members (fuel : nat) (s : string)
    : option (list (string * json) * string) :=
  match fuel with
  | O => None
  | S fuel' =>
      match skip_ws s with
      | String a rest =>
          if decide (a = quote)
          then
            '(key, rest1) ← read_string rest EmptyString;
            match skip_ws rest1 with
            | String ":" rest2 =>
                '(v, rest3) ← parse_value fuel' rest2;
                match skip_ws rest3 with
                | String "," rest4 =>
                    '(kvs, rest5) ← parse_members fuel' rest4;
                    Some ((key, v) :: kvs, rest5)
                | String "}" rest4 => Some ([(key, v)], rest4)
                | _ => None
                end
            | _ => None
            end
          else None
      | EmptyString => None
      end
  end.

(** The whole text must be one value. *)
Definition parse (text : string) : option json :=
  '(v, rest) ← parse_value (2 * String.length text + 2) text;
  match skip_ws rest with
  | EmptyString => Some v
  | _ => None
  end.

(** *** The persisted shapes *)

(** A property of an object; the last entry wins. *)
Definition field (key : string) (l : list (string * json)) : option json :=
  match list_find (λ kv : string * json, kv.1 = key) (reverse l) with
  | Some (_, kv) => Some kv.2
  | None => None
  end.

Definition as_string (j : json) : option string :=
  match j with JString s => Some s | _ => None end.
Definition as_number (j : json) : option Q :=
  match j with JNumber q => Some q | _ => None end.
Definition as_bool (j : json) : option bool :=
  match j with JBool b => Some b | _ => None end.
Definition as_integer (j : json) : option Z :=
  match j with
  | JNumber q =>
      if decide (Qden (Qred q) = 1%positive) then Some (Qnum (Qred q))
      else None
  | _ => None
  end.
Definition as_list {A} (f : json → option A) (j : json) : option (list A) :=
  match j with JArray l => mapM f l | _ => None end.
Definition as_object (j : json) : option (list (string * json)) :=
  match j with JObject l => Some l | _ => None end.

Definition of_song (s : Song.t) : json :=
  JObject [("id", JString (Song.id s)); ("title", JString (Song.title s));
           ("artist", JString (Song.artist s));
           ("coverArt", JString (Song.coverArt s));
           ("audioSrc", JString (Song.audioSrc s))].

Definition to_song (j : json) : option Song.t :=
  l ← as_object j;
  id ← field "id" l ≫= as_string;
  title ← field "title" l ≫= as_string;
  artist ← field "artist" l ≫= as_string;
  coverArt ← field "coverArt" l ≫= as_string;
  audioSrc ← field "audioSrc" l ≫= as_string;
  Some (Song.mk id title artist coverArt audioSrc).

Definition of_playlist (p : Playlist.t) : json :=
  JObject [("id", JString (Playlist.id p));
           ("name", JString (Playlist.name p));
           ("songs", JArray (JString <$> Playlist.songs p))].

Definition to_playlist (j : json) : option Playlist.t :=
  l ← as_object j;
  id ← field "id" l ≫= as_string;
  name ← field "name" l ≫= as_string;
  songs ← field "songs" l ≫= as_list as_string;
  Some (Playlist.mk id name songs).

Definition of_snapshot (s : Snapshot.t) : json :=
  JObject [("songId", JString (Snapshot.songId s));
           ("currentTime", JNumber (Snapshot.currentTime s));
           ("isPlaying", JBool (Snapshot.isPlaying s));
           ("timestamp", JNumber (inject_Z (Snapshot.timestamp s)));
           ("volume", JNumber (Snapshot.volume s))].

Definition to_snapshot (j : json) : option Snapshot.t :=
  l ← as_object j;
  songId ← field "songId" l ≫= as_string;
  currentTime ← field "currentTime" l ≫= as_number;
  isPlaying ← field "isPlaying" l ≫= as_bool;
  timestamp ← field "timestamp" l ≫= as_integer;
  volume ← field "volume" l ≫= as_number;
  Some (Snapshot.mk songId currentTime isPlaying timestamp volume).

Definition of_cache (e : CacheEntry.t) : json :=
  JObject [("id", JString (CacheEntry.id e));
           ("url", JString (CacheEntry.url e))].

Definition to_cache (j : json) : option CacheEntry.t :=
  l ← as_object j;
  id ← field "id" l ≫= as_string;
  url ← field "url" l ≫= as_string;
  Some (CacheEntry.mk id url).

#[export] Instance json_songs : JSON (list Song.t) :=
  {| JSON_stringify l := print (JArray (of_song <$> l));
     JSON_parse text := parse text ≫= as_list to_song |}.

#[export] Instance json_playlists : JSON (list Playlist.t) :=
  {| JSON_stringify l := print (JArray (of_playlist <$> l));
     JSON_parse text := parse text ≫= as_list to_playlist |}.

#[export] Instance json_snapshot : JSON Snapshot.t :=
  {| JSON_stringify s := print (of_snapshot s);
     JSON_parse text := parse text ≫= to_snapshot |}.

#[export] Instance json_cache : JSON CacheEntry.t :=
  {| JSON_stringify e := print (of_cache e);
     JSON_parse text := parse text ≫= to_cache |}.

End Host.

(** ** Closed inputs

    A catalog of three songs, the instance the constructor builds on an
    empty store, and that instance once the catalog is loaded. *)
Module Demo.

Definition alpha : Song.t :=
  Song.mk "s1" "Alpha" "DJ Sun" "alpha.png" "alpha.mp3".
Definition beta : Song.t :=
  Song.mk "s2" "Beta" "Lola" "beta.png" "beta.mp3".
Definition gamma : Song.t :=
  Song.mk "s3" "Gamma" "Lola" "gamma.png" "gamma.mp3".

Definition catalog : list Song.t := [alpha; beta; gamma].

Definition fresh : State :=
  mkState [] [] [] [] None [] 0 false false Audio.initial ∅ None.

Definition loaded : State :=
  mkState catalog catalog [] [] None [] 0 false true Audio.initial ∅ None.

(** [loaded] with one playlist, named "Road" and holding [tracks]. *)
Definition with_playlist (tracks : list string) : State :=
  set_playlists [Playlist.mk "p1" "Road" tracks] loaded.

(** A snapshot of [beta], playing, saved at [saved]. *)
Definition snapshot (saved : Z) : Snapshot.t :=
  Snapshot.mk "s2" (25 # 2) true saved 1%Q.

(** A snapshot of a song that [catalog] does not hold, playing, saved at
    [saved]. *)
Definition departed (saved : Z) : Snapshot.t :=
  Snapshot.mk "s9" (25 # 2) true saved 1%Q.

Definition clock : Z := 1700000000000.

(** [st] with a snapshot of [beta], saved [age] milliseconds before
    [clock], in its store. *)
Definition with_snapshot (age : Z) (st : State) : State :=
  set_localStorage
    (<["groovePlaybackState" :=
         JSON_stringify (JSON := Host.json_snapshot)
           (snapshot (clock - age))]>
       (localStorage st))
    st.

End Demo.

(** Closed traffic for the service worker: a page and a track of the
    site, a style sheet of another origin, and a cache storage that
    still holds a cache of an older version. *)
Module Traffic.
Import ServiceWorker.

Definition site : string := "https://groove.example".

Definition page : Request :=
  mkRequest "https://groove.example/index.html" site "/index.html"
    "document".
Definition track : Request :=
  mkRequest "https://groove.example/audio/alpha.mp3" site
    "/audio/alpha.mp3" "audio".
Definition sheet : Request :=
  mkRequest "https://fonts.example/inter.css" "https://fonts.example"
    "/inter.css" "style".

Definition ok (body : string) : Response := mkResponse 200 body.

Definition installed : CacheStorage :=
  [ ("groove-static-v0.9.0", {[ "https://groove.example/old.css" := ok "old" ]});
    (STATIC_CACHE, {[ "https://groove.example/index.html" := ok "<html>" ]}) ].

End Traffic.

(** Closed sessions of the controller. *)
Module Sessions.
Import Demo.

(** A run that likes, creates, refuses a duplicate, adds, navigates and
    deletes. *)
Definition session : list Event :=
  [ SongClicked beta; LikeButtonClicked; CreatePlaylist "Rock" clock;
    CreatePlaylist " rock " (clock + 1); AddToPlaylist "1700000000000" "s2";
    AddToPlaylist "1700000000000" "s2"; KeyDown "BODY" "ArrowRight";
    SearchInput "lo"; AudioEnded; MediaSession "previoustrack";
    KeyDown "INPUT" "KeyL"; KeyDown "BODY" "KeyL";
    CreatePlaylist "Jazz" (clock + 2); DeletePlaylist "1700000000002";
    WindowBlur (clock + 3); FocusTimer (clock + 4) ].

(** The instance playing [beta] at full volume, position 12.5 s. *)
Definition playing_beta : State :=
  let st := playSong loaded beta in
  mkState (songs st) (filteredSongs st) (likedSongs st) (playlists st)
    (currentSong st) (currentPlaylist st) (currentIndex st) true
    (songsLoaded st) (Audio.set_currentTime (25 # 2) (audio st))
    (localStorage st) (errorModal st).

End Sessions.

(** * Properties *)

(** ** Array methods *)

Section ArrayFacts.
Context {A : Type} (P : A → Prop) `{∀ x, Decision (P x)}.

Lemma find_Some (l : list A) (x : A) :
  find P l = Some x → x ∈ l ∧ P x.
Proof.
  unfold find. destruct (list_find P l) as [[i y]|] eqn:E; [|done].
  intros [= <-]. apply list_find_Some in E as (Hi & HP & _).
  split; [by eapply list_elem_of_lookup_2 | done].
Qed.

Lemma find_None (l : list A) :
  find P l = None ↔ Forall (λ x, ¬ P x) l.
Proof.
  unfold find. rewrite fmap_None. apply list_find_None.
Qed.

Lemma some_true (l : list A) :
  some P l = true ↔ ∃ x, x ∈ l ∧ P x.
Proof.
  unfold some. rewrite bool_decide_eq_true. apply Exists_exists.
Qed.

Lemma some_false (l : list A) :
  some P l = false ↔ ∀ x, x ∈ l → ¬ P x.
Proof.
  unfold some. rewrite bool_decide_eq_false, Exists_exists.
  split; [intros Hn x Hx HP; apply Hn; eauto | intros Hn (x & Hx & HP)].
  by apply (Hn x).
Qed.

Lemma filter_none (l : list A) :
  (∀ x, x ∈ l → P x) → filter P l = l.
Proof.
  induction l as [|a l IH]; intros Hall; [done|].
  rewrite filter_cons_True by (apply Hall; left).
  f_equal. apply IH. intros x Hx. apply Hall. by right.
Qed.
End ArrayFacts.

Lemma at_index_Some {A} (l : list A) (i : Z) (x : A) :
  at_index l i = Some x ↔ 0 ≤ i ∧ l !! Z.to_nat i = Some x.
Proof.
  unfold at_index. destruct (bool_decide_reflect (0 ≤ i)) as [Hi|Hi].
  - split; [by intros ? | by intros [_ ?]].
  - split; [done | by intros [? _]].
Qed.

(** With pairwise distinct keys, [findIndex] by key finds the position an
    element sits at. *)
Lemma findIndex_NoDup {A K} `{EqDecision K} (key : A → K) (l : list A)
    (i : nat) (x : A) :
  NoDup (key <$> l) → l !! i = Some x →
  findIndex (λ y, key y = key x) l = Z.of_nat i.
Proof.
  intros Hnd Hi. unfold findIndex.
  destruct (list_find (λ y, key y = key x) l) as [[j y]|] eqn:E.
  - apply list_find_Some in E as (Hj & Hk & _). simpl.
    f_equal. apply (NoDup_lookup (key <$> l) j i (key x) Hnd).
    + by rewrite list_lookup_fmap, Hj; simpl; rewrite Hk.
    + by rewrite list_lookup_fmap, Hi.
  - apply list_find_None in E. rewrite Forall_forall in E.
    destruct (E x); [by eapply list_elem_of_lookup_2 | done].
Qed.

Lemma findIndex_range {A} (P : A → Prop) `{∀ x, Decision (P x)}
    (l : list A) :
  -1 ≤ findIndex P l < Z.of_nat (length l).
Proof.
  unfold findIndex. destruct (list_find P l) as [[j y]|] eqn:E; simpl.
  - apply list_find_Some in E as (Hj & _). apply lookup_lt_Some in Hj. lia.
  - lia.
Qed.

(** ** Library state *)

Section LibraryFacts.
Context {json_songs : JSON (list Song.t)}
        {json_playlists : JSON (list Playlist.t)}
        {string_methods : StringMethods}.

Lemma saveData_persisted (st : State) : persisted (saveData st).
Proof.
  split; simpl.
  - rewrite lookup_insert_ne by done. apply lookup_insert_eq.
  - apply lookup_insert_eq.
Qed.

Lemma liked_iff_id (l : list Song.t) (songId : string) :
  some (λ s, Song.id s = songId) l = true ↔ songId ∈ Song.id <$> l.
Proof.
  rewrite some_true, list_elem_of_fmap.
  split; intros (x & H1 & H2); exists x; by split.
Qed.

Lemma toggleSongLike_found (st : State) (songId : string) (song : Song.t) :
  find (λ s, Song.id s = songId) (songs st) = Some song →
  toggleSongLike st songId =
    saveData
      (set_likedSongs
         (if some (λ s, Song.id s = songId) (likedSongs st)
          then filter (λ s, Song.id s ≠ songId) (likedSongs st)
          else likedSongs st ++ [song])
         st).
Proof. intros Hf. unfold toggleSongLike. by rewrite Hf. Qed.

Lemma filter_other_ids (l : list Song.t) (songId : string) :
  songId ∉ Song.id <$> l → filter (λ s, Song.id s ≠ songId) l = l.
Proof.
  intros Hn. apply filter_none. intros x Hx Hc. apply Hn.
  apply list_elem_of_fmap. eauto.
Qed.

Lemma filter_removes_id (l : list Song.t) (songId : string) :
  songId ∉ Song.id <$> filter (λ s, Song.id s ≠ songId) l.
Proof.
  rewrite list_elem_of_fmap. intros (x & Hc & Hx).
  apply list_elem_of_filter in Hx as [Hne _]. by apply Hne.
Qed.

(** C10. [toggleSongLike(songId)] changes nothing when no catalog song
    has that id.  Otherwise it removes every liked song with that id
    when one is liked, else appends the catalog's song, and persists.
    Two calls in a row leave the same ids liked and the other liked
    songs in their order; when the id was not liked, the list itself is
    restored. *)
Theorem toggleSongLike_twice (st : State) (songId : string) :
  (find (λ s, Song.id s = songId) (songs st) = None →
   toggleSongLike st songId = st) ∧
  (∀ song, find (λ s, Song.id s = songId) (songs st) = Some song →
     let st1 := toggleSongLike st songId in
     let st2 := toggleSongLike st1 songId in
     (songId ∈ Song.id <$> likedSongs st →
      likedSongs st1 = filter (λ s, Song.id s ≠ songId) (likedSongs st)) ∧
     (songId ∉ Song.id <$> likedSongs st →
      likedSongs st1 = likedSongs st ++ [song] ∧
      likedSongs st2 = likedSongs st) ∧
     persisted st1 ∧ persisted st2 ∧
     (∀ x, x ∈ Song.id <$> likedSongs st2 ↔ x ∈ Song.id <$> likedSongs st) ∧
     filter (λ s, Song.id s ≠ songId) (likedSongs st2)
       = filter (λ s, Song.id s ≠ songId) (likedSongs st)).
Proof.
  split; [intros Hf; unfold toggleSongLike; by rewrite Hf|].
  intros song Hf st1 st2.
  assert (Hid : Song.id song = songId) by (by apply find_Some in Hf as [_ ?]).
  assert (Hf1 : find (λ s, Song.id s = songId) (songs st1) = Some song).
  { subst st1. by rewrite (toggleSongLike_found _ _ _ Hf). }
  assert (E1 := toggleSongLike_found st songId song Hf). fold st1 in E1.
  assert (E2 := toggleSongLike_found st1 songId song Hf1). fold st2 in E2.
  destruct (some (λ s, Song.id s = songId) (likedSongs st)) eqn:Hl.
  - (* liked: removed, then appended again *)
    apply liked_iff_id in Hl.
    assert (L1 : likedSongs st1
                 = filter (λ s, Song.id s ≠ songId) (likedSongs st))
      by (by rewrite E1).
    assert (Hl1 : some (λ s, Song.id s = songId) (likedSongs st1) = false).
    { apply not_true_is_false. rewrite liked_iff_id, L1.
      apply filter_removes_id. }
    rewrite Hl1 in E2.
    assert (L2 : likedSongs st2 = likedSongs st1 ++ [song]) by (by rewrite E2).
    split_and!.
    + done.
    + done.
    + rewrite E1. apply saveData_persisted.
    + rewrite E2. apply saveData_persisted.
    + intros x. rewrite L2, L1, fmap_app, elem_of_app. simpl.
      rewrite list_elem_of_singleton, Hid, !list_elem_of_fmap.
      split.
      * intros [(y & -> & Hy)| ->]; [|by apply list_elem_of_fmap].
        apply list_elem_of_filter in Hy as [_ Hy]. eauto.
      * intros (y & -> & Hy).
        destruct (decide (Song.id y = songId)) as [|Hne]; [by right|].
        left. exists y. split; [done|]. by apply list_elem_of_filter.
    + rewrite L2, L1, filter_app, list_filter_filter.
      rewrite (filter_cons_False _ song) by (intros Hc; by apply Hc).
      rewrite filter_nil, app_nil_r.
      apply list_filter_iff. intros x. split; [by intros [? _] | done].
  - (* not liked: appended, then removed again *)
    assert (Hn : songId ∉ Song.id <$> likedSongs st).
    { rewrite <- liked_iff_id, Hl. done. }
    assert (L1 : likedSongs st1 = likedSongs st ++ [song]) by (by rewrite E1).
    assert (Hl1 : some (λ s, Song.id s = songId) (likedSongs st1) = true).
    { rewrite liked_iff_id, L1, fmap_app, elem_of_app. right.
      simpl. rewrite Hid. by left. }
    rewrite Hl1 in E2.
    assert (L2 : likedSongs st2 = likedSongs st).
    { rewrite E2. simpl. rewrite L1, filter_app, filter_other_ids by done.
      rewrite (filter_cons_False _ song) by (intros Hc; by apply Hc).
      by rewrite filter_nil, app_nil_r. }
    split_and!.
    + done.
    + done.
    + rewrite E1. apply saveData_persisted.
    + rewrite E2. apply saveData_persisted.
    + intros x. by rewrite L2.
    + by rewrite L2.
Qed.

(** Playlists whose song ids are pairwise distinct. *)
Lemma addToPlaylist_NoDup (st : State) (playlistId songId : string) :
  Forall (λ p, NoDup (Playlist.songs p)) (playlists st) →
  Forall (λ p, NoDup (Playlist.songs p))
    (playlists (addToPlaylist st playlistId songId)).
Proof.
  intros Hall. unfold addToPlaylist.
  destruct (list_find _ (playlists st)) as [[i p]|] eqn:Ep; [|done].
  destruct (find _ (songs st)) as [song|]; [|done].
  unfold includes. case_bool_decide as Hin; [done|]. simpl.
  apply list_find_Some in Ep as (Hi & _).
  apply Forall_alter; [done|]. intros q Hq Hnd.
  assert (q = p) as -> by congruence. simpl.
  apply NoDup_app. split_and!; [done | | apply NoDup_singleton].
  intros x Hx Hs. apply list_elem_of_singleton in Hs. by subst.
Qed.

(** C9. [addToPlaylist(playlistId, songId)] changes nothing when no
    playlist has that id, when no catalog song has that id, or when the
    first playlist with that id already lists the song.  Otherwise it
    appends the id to that playlist and persists.  Hence playlists
    without duplicate song ids stay so along any run of calls, in
    particular a run repeating one pair. *)
Theorem addToPlaylist_no_duplicates (st : State)
    (playlistId songId : string) :
  ((∀ p, p ∈ playlists st → Playlist.id p ≠ playlistId) →
   addToPlaylist st playlistId songId = st) ∧
  ((∀ s, s ∈ songs st → Song.id s ≠ songId) →
   addToPlaylist st playlistId songId = st) ∧
  (∀ i p, list_find (λ p, Playlist.id p = playlistId) (playlists st)
            = Some (i, p) →
     songId ∈ Playlist.songs p →
     addToPlaylist st playlistId songId = st) ∧
  (∀ i p song,
     list_find (λ p, Playlist.id p = playlistId) (playlists st)
       = Some (i, p) →
     find (λ s, Song.id s = songId) (songs st) = Some song →
     songId ∉ Playlist.songs p →
     let st' := addToPlaylist st playlistId songId in
     playlists st'
       = alter (Playlist.with_songs (Playlist.songs p ++ [songId])) i
           (playlists st) ∧
     persisted st') ∧
  (Forall (λ p, NoDup (Playlist.songs p)) (playlists st) →
   (∀ calls,
      Forall (λ p, NoDup (Playlist.songs p))
        (playlists (addAllToPlaylist st calls))) ∧
   (∀ k,
      Forall (λ p, NoDup (Playlist.songs p))
        (playlists
           (addAllToPlaylist st (replicate k (playlistId, songId)))))).
Proof.
  split_and!.
  - intros Hno. unfold addToPlaylist.
    destruct (list_find _ (playlists st)) as [[i p]|] eqn:Ep; [|done].
    apply list_find_Some in Ep as (Hi & Hp & _).
    destruct (Hno p); [by eapply list_elem_of_lookup_2 | done].
  - intros Hno. unfold addToPlaylist.
    destruct (list_find _ (playlists st)) as [[i p]|]; [|done].
    destruct (find _ (songs st)) as [song|] eqn:Es; [|done].
    apply find_Some in Es as [Hs Hid]. by destruct (Hno song).
  - intros i p Ep Hin. unfold addToPlaylist. rewrite Ep.
    destruct (find _ (songs st)); [|done].
    unfold includes. by rewrite bool_decide_eq_true_2.
  - intros i p song Ep Es Hnin st'. subst st'. unfold addToPlaylist.
    rewrite Ep, Es. unfold includes. rewrite bool_decide_eq_false_2 by done.
    split; [done | apply saveData_persisted].
  - intros Hall.
    assert (Hrun : ∀ calls s,
               Forall (λ p, NoDup (Playlist.songs p)) (playlists s) →
               Forall (λ p, NoDup (Playlist.songs p))
                 (playlists (addAllToPlaylist s calls))).
    { induction calls as [|c calls IH]; intros s Hs; [done|].
      apply IH. by apply addToPlaylist_NoDup. }
    split; [intros calls | intros k]; by apply Hrun.
Qed.

(** C5, as the code has it.  [removeFromPlaylist(playlistId, songId)]
    acts only when a playlist has that id and a catalog song has that
    id: it then drops the id from the first such playlist (leaving the
    list as it is when the id is not in it) and persists.  When no
    playlist has the id, or when the id is in no catalog song, dangling
    ids included, nothing changes. *)
Theorem removeFromPlaylist_guarded (st : State)
    (playlistId songId : string) :
  ((∀ p, p ∈ playlists st → Playlist.id p ≠ playlistId) →
   removeFromPlaylist st playlistId songId = st) ∧
  ((∀ s, s ∈ songs st → Song.id s ≠ songId) →
   removeFromPlaylist st playlistId songId = st) ∧
  (∀ i p song,
     list_find (λ p, Playlist.id p = playlistId) (playlists st)
       = Some (i, p) →
     find (λ s, Song.id s = songId) (songs st) = Some song →
     let st' := removeFromPlaylist st playlistId songId in
     playlists st'
       = alter
           (Playlist.with_songs
              (filter (λ s, s ≠ songId) (Playlist.songs p)))
           i (playlists st) ∧
     (∃ p', playlists st' !! i = Some p' ∧
            Playlist.id p' = playlistId ∧
            (songId ∉ Playlist.songs p') ∧
            (∀ x, x ≠ songId →
                  (x ∈ Playlist.songs p' ↔ x ∈ Playlist.songs p))) ∧
     (songId ∉ Playlist.songs p → playlists st' = playlists st) ∧
     persisted st').
Proof.
  split_and!.
  - intros Hno. unfold removeFromPlaylist.
    destruct (list_find _ (playlists st)) as [[i p]|] eqn:Ep; [|done].
    apply list_find_Some in Ep as (Hi & Hp & _).
    destruct (Hno p); [by eapply list_elem_of_lookup_2 | done].
  - intros Hno. unfold removeFromPlaylist.
    destruct (list_find _ (playlists st)) as [[i p]|]; [|done].
    destruct (find _ (songs st)) as [song|] eqn:Es; [|done].
    apply find_Some in Es as [Hs Hid]. by destruct (Hno song).
  - intros i p song Ep Es st'. subst st'. unfold removeFromPlaylist.
    rewrite Ep, Es. apply list_find_Some in Ep as (Hi & Hp & _).
    split_and!.
    + done.
    + eexists. split; [|split_and!].
      * simpl. rewrite list_lookup_alter_eq, Hi. done.
      * done.
      * simpl. intros Hc. apply list_elem_of_filter in Hc as [Hc _].
        by apply Hc.
      * simpl. intros x Hx. rewrite list_elem_of_filter.
        split; [by intros [_ ?] | done].
    + intros Hnin. simpl.
      rewrite filter_none by (intros x Hx ->; done).
      apply list_eq. intros j.
      destruct (decide (i = j)) as [<-|Hne].
      * rewrite list_lookup_alter_eq, Hi. by destruct p.
      * by rewrite list_lookup_alter_ne.
    + apply saveData_persisted.
Qed.

Lemma createPlaylist_cases (st : State) (input : string) (now : Z) :
  createPlaylist st input now = (st, EmptyName) ∧ trim input = "" ∨
  createPlaylist st input now
    = (showError "A playlist with this name already exists" st,
       DuplicateName) ∧
    trim input ≠ "" ∧
    (∃ p, p ∈ playlists st ∧
          toLowerCase (Playlist.name p) = toLowerCase (trim input)) ∨
  createPlaylist st input now
    = (saveData
         (set_playlists
            (playlists st ++ [Playlist.mk (pretty now) (trim input) []])
            st),
       Created) ∧
    trim input ≠ "" ∧
    (∀ p, p ∈ playlists st →
          toLowerCase (Playlist.name p) ≠ toLowerCase (trim input)).
Proof.
  unfold createPlaylist. case_bool_decide as Hn; [by left|]. right.
  destruct (some _ (playlists st)) eqn:Hs.
  - left. apply some_true in Hs. done.
  - right. split_and!; [done..|]. by apply (some_false _).
Qed.

(** C7. [createPlaylist()] on the typed text [input]: an empty trimmed
    name ends in [EmptyName] with the instance as it was; a trimmed
    name equal, after [toLowerCase], to the name of a stored playlist
    ends in [DuplicateName] with the playlists, the liked songs and the
    store as they were; otherwise the playlist [{id, name, songs: []}]
    with the trimmed name is appended and both collections are
    persisted.  Hence a second creation whose trimmed name differs from
    the first only by case is refused and the first stays the only
    addition. *)
Theorem createPlaylist_validation (st : State) (input : string) (now : Z) :
  (trim input = "" →
   createPlaylist st input now = (st, EmptyName)) ∧
  (trim input ≠ "" →
   (∃ p, p ∈ playlists st ∧
         toLowerCase (Playlist.name p) = toLowerCase (trim input)) →
   let r := createPlaylist st input now in
   r.2 = DuplicateName ∧ playlists r.1 = playlists st ∧
   likedSongs r.1 = likedSongs st ∧ localStorage r.1 = localStorage st) ∧
  (trim input ≠ "" →
   (∀ p, p ∈ playlists st →
         toLowerCase (Playlist.name p) ≠ toLowerCase (trim input)) →
   let r := createPlaylist st input now in
   r.2 = Created ∧
   playlists r.1
     = playlists st ++ [Playlist.mk (pretty now) (trim input) []] ∧
   persisted r.1) ∧
  (∀ input2 now2,
     trim input ≠ "" → trim input2 ≠ "" →
     toLowerCase (trim input2) = toLowerCase (trim input) →
     (∀ p, p ∈ playlists st →
           toLowerCase (Playlist.name p) ≠ toLowerCase (trim input)) →
     let r1 := createPlaylist st input now in
     let r2 := createPlaylist r1.1 input2 now2 in
     r1.2 = Created ∧ r2.2 = DuplicateName ∧
     playlists r2.1
       = playlists st ++ [Playlist.mk (pretty now) (trim input) []] ∧
     length (playlists r2.1) = S (length (playlists st))).
Proof.
  split_and!.
  - intros Hn. unfold createPlaylist. by rewrite bool_decide_eq_true_2.
  - intros Hn Hdup r. subst r.
    destruct (createPlaylist_cases st input now)
      as [[_ ?]|[(-> & _)|(_ & _ & Hfresh)]]; [done|done|].
    destruct Hdup as (p & Hp & Heq). by destruct (Hfresh p).
  - intros Hn Hfresh r. subst r.
    destruct (createPlaylist_cases st input now)
      as [[_ ?]|[(_ & _ & (p & Hp & Heq))|(-> & _)]]; [done| |].
    + by destruct (Hfresh p).
    + split_and!; [done..|]. apply saveData_persisted.
  - intros input2 now2 Hn Hn2 Hcase Hfresh r1 r2.
    assert (E1 : r1 = (saveData
                         (set_playlists
                            (playlists st
                             ++ [Playlist.mk (pretty now) (trim input) []])
                            st),
                       Created)).
    { subst r1. destruct (createPlaylist_cases st input now)
        as [[_ ?]|[(_ & _ & (p & Hp & Heq))|(-> & _)]]; [done| |done].
      by destruct (Hfresh p). }
    assert (E2 : r2.2 = DuplicateName ∧ playlists r2.1 = playlists r1.1).
    { subst r2. destruct (createPlaylist_cases r1.1 input2 now2)
        as [[_ ?]|[(-> & _)|(_ & _ & Hfresh2)]]; [done|done|].
      destruct (Hfresh2 (Playlist.mk (pretty now) (trim input) [])).
      - rewrite E1. simpl. apply elem_of_app. right. by left.
      - by rewrite Hcase. }
    destruct E2 as [E2 E3]. rewrite E3, E1. simpl.
    split_and!; [done..|]. rewrite length_app. simpl. lia.
Qed.

(** C8, as the code has it.  The id of a new playlist is the decimal
    text of the clock value, so [createPlaylist] keeps the ids pairwise
    distinct when no stored playlist carries that text as its id; in
    particular along any run of calls made at strictly increasing clock
    values from an empty collection. *)
Theorem createPlaylist_ids_distinct (st : State) :
  (∀ input now,
     NoDup (Playlist.id <$> playlists st) →
     (∀ p, p ∈ playlists st → Playlist.id p ≠ pretty now) →
     NoDup (Playlist.id <$> playlists (createPlaylist st input now).1)) ∧
  (∀ calls,
     playlists st = [] →
     StronglySorted Z.lt (calls.*2) →
     NoDup (Playlist.id <$> playlists (createAllPlaylists st calls))).
Proof.
  assert (Hstep : ∀ s input now,
             NoDup (Playlist.id <$> playlists s) →
             (∀ p, p ∈ playlists s → Playlist.id p ≠ pretty now) →
             NoDup (Playlist.id <$> playlists (createPlaylist s input now).1)).
  { intros s input now Hnd Hfresh.
    destruct (createPlaylist_cases s input now)
      as [[-> _]|[(-> & _)|(-> & _)]]; [done|done|].
    simpl. rewrite fmap_app. apply NoDup_app. split_and!.
    - done.
    - intros x Hx Hs. simpl in Hs. apply list_elem_of_singleton in Hs.
      apply list_elem_of_fmap in Hx as (p & -> & Hp). by destruct (Hfresh p).
    - apply NoDup_singleton. }
  split; [intros input now; apply Hstep|].
  intros calls Hempty Hsorted.
  assert (Hrun : ∀ calls s,
             NoDup (Playlist.id <$> playlists s) →
             (∀ p, p ∈ playlists s →
                ∃ t, Playlist.id p = pretty t ∧ Forall (Z.lt t) (calls.*2)) →
             StronglySorted Z.lt (calls.*2) →
             NoDup (Playlist.id <$> playlists (createAllPlaylists s calls))).
  { clear. intros calls. induction calls as [|[input now] calls IH];
      intros s Hnd Hold Hsorted; [done|].
    simpl in Hsorted. apply StronglySorted_inv in Hsorted as [Hrest Hlt].
    unfold createAllPlaylists. simpl. apply IH; [| |done].
    - assert (Hfresh : ∀ p, p ∈ playlists s → Playlist.id p ≠ pretty now).
      { intros p Hp Hc. destruct (Hold p Hp) as (t & Ht & Hall).
        simpl in Hall. apply Forall_cons in Hall as [Hlt' _].
        rewrite Ht in Hc. apply (inj pretty) in Hc. lia. }
      destruct (createPlaylist_cases s input now)
        as [[-> _]|[(-> & _)|(-> & _)]]; [done|done|].
      simpl. rewrite fmap_app. apply NoDup_app. split_and!.
      + done.
      + intros x Hx Hs. simpl in Hs. apply list_elem_of_singleton in Hs.
        apply list_elem_of_fmap in Hx as (p & -> & Hp).
        by destruct (Hfresh p).
      + apply NoDup_singleton.
    - intros p Hp.
      assert (Hp' : p ∈ playlists s ∨
                    p = Playlist.mk (pretty now) (trim input) []).
      { destruct (createPlaylist_cases s input now)
          as [[E _]|[(E & _)|(E & _)]]; rewrite E in Hp; simpl in Hp.
        - by left.
        - by left.
        - apply elem_of_app in Hp as [?|Hp]; [by left|].
          apply list_elem_of_singleton in Hp. by right. }
      destruct Hp' as [Hp'| ->].
      + destruct (Hold p Hp') as (t & Ht & Hall). exists t.
        split; [done|]. simpl in Hall. by apply Forall_cons in Hall as [_ ?].
      + exists now. split; [done|]. done. }
  apply Hrun; [| |done].
  - rewrite Hempty. constructor.
  - rewrite Hempty. intros p Hp. by apply elem_of_nil in Hp.
Qed.

End LibraryFacts.

(** ** Ring navigation and the playback invariant *)

Section PlaybackFacts.

Lemma selected_set_currentIndex (v : Z) (st : State) :
  selected (set_currentIndex v st) = selected st.
Proof. done. Qed.

(** Whatever is played, the index [playSong] leaves is at least [-1],
    the range the ring steps start from. *)
Lemma playSong_index_range (st : State) (song : Song.t) :
  -1 ≤ currentIndex (playSong st song)
     < Z.of_nat (length (currentPlaylist (playSong st song))).
Proof. apply findIndex_range. Qed.

(** Playing the song at position [k] of a list with distinct ids, that
    list being the one [playSong] selects. *)
Lemma playSong_at (st : State) (k : nat) (song : Song.t) :
  NoDup (Song.id <$> selected st) →
  selected st !! k = Some song →
  let st' := playSong st song in
  currentSong st' = Some song ∧ currentPlaylist st' = selected st ∧
  currentIndex st' = Z.of_nat k.
Proof.
  intros Hnd Hk st'. subst st'. unfold playSong. simpl.
  split_and!; [done..|].
  by apply (findIndex_NoDup Song.id (selected st) k song).
Qed.

Lemma playSong_consistent (st : State) (k : nat) (song : Song.t) :
  NoDup (Song.id <$> selected st) →
  selected st !! k = Some song →
  consistent (playSong st song).
Proof.
  intros Hnd Hk. destruct (playSong_at st k song Hnd Hk) as (Hs & Hp & Hi).
  intros s Hcur. rewrite Hs in Hcur. injection Hcur as <-.
  rewrite Hp, Hi. apply lookup_lt_Some in Hk as Hlt.
  split; [lia|]. apply at_index_Some. split; [lia|].
  by rewrite Nat2Z.id.
Qed.

(** Both ring steps from an index [i ≥ -1] land inside the list. *)
Lemma next_index_range (i n : Z) :
  0 < n → -1 ≤ i → 0 ≤ Z.rem (i + 1) n < n.
Proof. intros Hn Hi. apply Z.rem_bound_pos; lia. Qed.

Lemma previous_index_range (i n : Z) :
  0 < n → -1 ≤ i → 0 ≤ Z.rem (i - 1 + n) n < n.
Proof.
  intros Hn Hi. destruct (decide (n = 1)) as [->|Hne].
  - rewrite Z.rem_1_r. lia.
  - apply Z.rem_bound_pos; lia.
Qed.

(** A ring step to a position inside the current playlist plays the
    song there. *)
Lemma step_to (st : State) (j : Z) :
  currentPlaylist st = selected st →
  NoDup (Song.id <$> currentPlaylist st) →
  0 ≤ j < Z.of_nat (length (currentPlaylist st)) →
  ∃ song,
    at_index (currentPlaylist st) j = Some song ∧
    let st' := playSong (set_currentIndex j st) song in
    currentSong st' = Some song ∧
    currentPlaylist st' = currentPlaylist st ∧
    currentIndex st' = j ∧ consistent st'.
Proof.
  intros Hsel Hnd Hj.
  destruct (lookup_lt_is_Some_2 (currentPlaylist st) (Z.to_nat j))
    as [song Hs]; [lia|].
  exists song. split; [apply at_index_Some; split; [lia | done]|].
  assert (Hnd' : NoDup (Song.id <$> selected (set_currentIndex j st)))
    by (by rewrite selected_set_currentIndex, <- Hsel).
  assert (Hs' : selected (set_currentIndex j st) !! Z.to_nat j = Some song)
    by (by rewrite selected_set_currentIndex, <- Hsel).
  destruct (playSong_at _ _ _ Hnd' Hs') as (H1 & H2 & H3).
  split_and!.
  - done.
  - by rewrite H2, selected_set_currentIndex.
  - rewrite H3. lia.
  - by apply (playSong_consistent _ (Z.to_nat j)).
Qed.

Lemma nextSong_unfold (st : State) (song : Song.t) :
  currentPlaylist st ≠ [] →
  at_index (currentPlaylist st)
    (Z.rem (currentIndex st + 1) (Z.of_nat (length (currentPlaylist st))))
    = Some song →
  nextSong st
    = Returned
        (playSong
           (set_currentIndex
              (Z.rem (currentIndex st + 1)
                 (Z.of_nat (length (currentPlaylist st)))) st)
           song).
Proof.
  intros Hne Hs. unfold nextSong.
  rewrite bool_decide_eq_false_2
    by (destruct (currentPlaylist st); [done | simpl; lia]).
  simpl. by rewrite Hs.
Qed.

Lemma previousSong_unfold (st : State) (song : Song.t) :
  currentPlaylist st ≠ [] →
  at_index (currentPlaylist st)
    (Z.rem (currentIndex st - 1 + Z.of_nat (length (currentPlaylist st)))
       (Z.of_nat (length (currentPlaylist st))))
    = Some song →
  previousSong st
    = Returned
        (playSong
           (set_currentIndex
              (Z.rem
                 (currentIndex st - 1
                  + Z.of_nat (length (currentPlaylist st)))
                 (Z.of_nat (length (currentPlaylist st)))) st)
           song).
Proof.
  intros Hne Hs. unfold previousSong.
  rewrite bool_decide_eq_false_2
    by (destruct (currentPlaylist st); [done | simpl; lia]).
  simpl. by rewrite Hs.
Qed.

Lemma nonempty_length (st : State) :
  currentPlaylist st ≠ [] → 0 < Z.of_nat (length (currentPlaylist st)).
Proof. destruct (currentPlaylist st); [done | simpl; lia]. Qed.

(** What one press of next does from an index [i ≥ -1]. *)
Lemma nextSong_step (st : State) :
  currentPlaylist st ≠ [] →
  currentPlaylist st = selected st →
  NoDup (Song.id <$> currentPlaylist st) →
  -1 ≤ currentIndex st →
  ∃ song st',
    at_index (currentPlaylist st)
      (Z.rem (currentIndex st + 1) (Z.of_nat (length (currentPlaylist st))))
      = Some song ∧
    nextSong st = Returned st' ∧
    currentSong st' = Some song ∧
    currentPlaylist st' = currentPlaylist st ∧
    selected st' = selected st ∧
    currentIndex st'
      = Z.rem (currentIndex st + 1) (Z.of_nat (length (currentPlaylist st))) ∧
    consistent st'.
Proof.
  intros Hne Hsel Hnd Hi. apply nonempty_length in Hne as Hn.
  destruct (step_to st _ Hsel Hnd (next_index_range _ _ Hn Hi))
    as (song & Hs & H1 & H2 & H3 & H4).
  exists song. eexists. split; [done|].
  split; [by apply nextSong_unfold|]. done.
Qed.

Lemma previousSong_step (st : State) :
  currentPlaylist st ≠ [] →
  currentPlaylist st = selected st →
  NoDup (Song.id <$> currentPlaylist st) →
  -1 ≤ currentIndex st →
  ∃ song st',
    at_index (currentPlaylist st)
      (Z.rem (currentIndex st - 1 + Z.of_nat (length (currentPlaylist st)))
         (Z.of_nat (length (currentPlaylist st))))
      = Some song ∧
    previousSong st = Returned st' ∧
    currentSong st' = Some song ∧
    currentPlaylist st' = currentPlaylist st ∧
    selected st' = selected st ∧
    currentIndex st'
      = Z.rem (currentIndex st - 1 + Z.of_nat (length (currentPlaylist st)))
          (Z.of_nat (length (currentPlaylist st))) ∧
    consistent st'.
Proof.
  intros Hne Hsel Hnd Hi. apply nonempty_length in Hne as Hn.
  destruct (step_to st _ Hsel Hnd (previous_index_range _ _ Hn Hi))
    as (song & Hs & H1 & H2 & H3 & H4).
  exists song. eexists. split; [done|].
  split; [by apply previousSong_unfold|]. done.
Qed.

(** [k] presses of next move the index [k] places round the ring. *)
Lemma nextSongs_index (k : nat) (st : State) :
  currentPlaylist st = selected st →
  NoDup (Song.id <$> currentPlaylist st) →
  0 ≤ currentIndex st < Z.of_nat (length (currentPlaylist st)) →
  ∃ st',
    nextSongs k st = Returned st' ∧
    currentPlaylist st' = currentPlaylist st ∧
    currentIndex st'
      = (currentIndex st + Z.of_nat k)
          `mod` Z.of_nat (length (currentPlaylist st)).
Proof.
  revert st. induction k as [|k IH]; intros st Hsel Hnd Hi.
  - exists st. split_and!; [done..|].
    rewrite Z.add_0_r, Z.mod_small; [done | lia].
  - assert (Hne : currentPlaylist st ≠ [])
      by (intros E; rewrite E in Hi; simpl in Hi; lia).
    destruct (nextSong_step st Hne Hsel Hnd)
      as (song & st1 & _ & Hnext & _ & Hpl & Hsel1 & Hidx & _); [lia|].
    rewrite Z.rem_mod_nonneg in Hidx by lia.
    destruct (IH st1) as (st' & Hrun & Hpl' & Hidx').
    + by rewrite Hpl, Hsel1.
    + by rewrite Hpl.
    + rewrite Hidx, Hpl. apply Z.mod_pos_bound. lia.
    + exists st'. split_and!.
      * simpl. by rewrite Hnext.
      * by rewrite Hpl'.
      * rewrite Hidx', Hidx, Hpl, Zplus_mod_idemp_l. f_equal. lia.
Qed.

(** C3, as the code has it.  On an empty current playlist both
    operations return at once.  On a current playlist of [n > 0] songs
    with distinct ids that is still the list [playSong] selects, from an
    index [i] inside it: [nextSong()] sets the index to [(i + 1) mod n]
    and [previousSong()] to [(i - 1 + n) mod n], each plays the song at
    that index and ends with the index there; [n] presses of next bring
    the index back to [i]; with [n = 1] both end at index 0 on the same
    song. *)
Theorem ring_navigation (st : State) :
  (currentPlaylist st = [] →
   nextSong st = Returned st ∧ previousSong st = Returned st) ∧
  (∀ n i,
     n = Z.of_nat (length (currentPlaylist st)) →
     i = currentIndex st →
     0 ≤ i < n →
     currentPlaylist st = selected st →
     NoDup (Song.id <$> currentPlaylist st) →
     (∃ song st',
        at_index (currentPlaylist st) ((i + 1) `mod` n) = Some song ∧
        nextSong st = Returned st' ∧
        st' = playSong (set_currentIndex ((i + 1) `mod` n) st) song ∧
        currentIndex st' = (i + 1) `mod` n ∧
        currentSong st' = Some song ∧
        currentPlaylist st' = currentPlaylist st) ∧
     (∃ song st',
        at_index (currentPlaylist st) ((i - 1 + n) `mod` n) = Some song ∧
        previousSong st = Returned st' ∧
        st' = playSong (set_currentIndex ((i - 1 + n) `mod` n) st) song ∧
        currentIndex st' = (i - 1 + n) `mod` n ∧
        currentSong st' = Some song ∧
        currentPlaylist st' = currentPlaylist st) ∧
     (∃ st', nextSongs (Z.to_nat n) st = Returned st' ∧
             currentIndex st' = i) ∧
     (n = 1 →
      ∃ song st1 st2,
        nextSong st = Returned st1 ∧ previousSong st = Returned st2 ∧
        currentIndex st1 = 0 ∧ currentIndex st2 = 0 ∧
        currentSong st1 = Some song ∧ currentSong st2 = Some song)).
Proof.
  split.
  - intros E. unfold nextSong, previousSong. by rewrite E.
  - intros n i -> -> Hi Hsel Hnd.
    assert (Hne : currentPlaylist st ≠ [])
      by (intros E; rewrite E in Hi; simpl in Hi; lia).
    destruct (nextSong_step st Hne Hsel Hnd)
      as (s1 & st1 & Hs1 & Hn1 & Hc1 & Hp1 & _ & Hi1 & _); [lia|].
    destruct (previousSong_step st Hne Hsel Hnd)
      as (s2 & st2 & Hs2 & Hn2 & Hc2 & Hp2 & _ & Hi2 & _); [lia|].
    rewrite Z.rem_mod_nonneg in Hs1, Hi1 by lia.
    rewrite Z.rem_mod_nonneg in Hs2, Hi2 by lia.
    split_and!.
    + exists s1, st1. split_and!; [done..| |done|done|done].
      assert (E := nextSong_unfold st s1 Hne).
      rewrite Z.rem_mod_nonneg in E by lia.
      rewrite (E Hs1) in Hn1. by injection Hn1.
    + exists s2, st2. split_and!; [done..| |done|done|done].
      assert (E := previousSong_unfold st s2 Hne).
      rewrite Z.rem_mod_nonneg in E by lia.
      rewrite (E Hs2) in Hn2. by injection Hn2.
    + destruct (nextSongs_index (length (currentPlaylist st)) st Hsel Hnd Hi)
        as (st' & Hrun & _ & Hidx).
      exists st'. rewrite Nat2Z.id. split; [done|].
      rewrite Hidx.
      rewrite <- (Z.mul_1_l (Z.of_nat (length (currentPlaylist st)))) at 1.
      rewrite Z.mod_add by lia. apply Z.mod_small. lia.
    + intros E1. rewrite E1 in *.
      rewrite Z.mod_1_r in Hi1, Hi2, Hs1, Hs2.
      assert (s1 = s2) as -> by congruence.
      exists s2, st1, st2. done.
Qed.

(** C2, as the code has it.  The current song sits at the current index
    of the current playlist after [playSong(song)] when [song] is in the
    list [playSong] selects and the ids of that list are distinct, and
    after [nextSong()] and [previousSong()] on a non-empty current
    playlist with distinct ids that is still the list [playSong]
    selects (from any index [i ≥ -1]). *)
Theorem playback_invariant (st : State) :
  NoDup (Song.id <$> selected st) →
  (∀ song, song ∈ selected st → consistent (playSong st song)) ∧
  (currentPlaylist st ≠ [] →
   currentPlaylist st = selected st →
   -1 ≤ currentIndex st →
   (∃ st', nextSong st = Returned st' ∧ consistent st') ∧
   (∃ st', previousSong st = Returned st' ∧ consistent st')).
Proof.
  intros Hnd. split.
  - intros song Hin. apply list_elem_of_lookup in Hin as [k Hk].
    by apply (playSong_consistent st k).
  - intros Hne Hsel Hi. rewrite <- Hsel in Hnd. split.
    + destruct (nextSong_step st Hne Hsel Hnd Hi)
        as (s & st' & _ & Hn & _ & _ & _ & _ & Hc).
      by exists st'.
    + destruct (previousSong_step st Hne Hsel Hnd Hi)
        as (s & st' & _ & Hn & _ & _ & _ & _ & Hc).
      by exists st'.
Qed.

End PlaybackFacts.

(** ** Superseded acquisitions *)

Section AcquisitionFacts.
Context {json_snapshot : JSON Snapshot.t}
        {json_cache : JSON CacheEntry.t}.

Lemma savePlaybackState_keeps (st : State) (now : Z) :
  currentSong (savePlaybackState st now) = currentSong st ∧
  audio (savePlaybackState st now) = audio st.
Proof.
  unfold savePlaybackState. destruct (currentSong st) eqn:E; simpl; [|done].
  by rewrite E.
Qed.

Lemma cached_playSong_currentSong (st : State) (song : Song.t) :
  currentSong (Cached.playSong st song).1 = Some song.
Proof.
  unfold Cached.playSong. simpl.
  destruct (localStorage st !! Cached.tempSongCacheKey) as [text|]; [|done].
  case_bool_decide; [done|].
  destruct (JSON_parse text) as [entry|]; [|done].
  by case_bool_decide.
Qed.

(** C1, as the code has it.  After [playSong(A)] and then [playSong(B)]
    the current song is [B], in both variants.  In [app.js] the source
    of [B] is assigned before [playSong] returns and no settlement of a
    play request touches the current song or the audio element.  In
    the caching variant the end of an acquisition is not compared with
    the current song: it leaves the current song as it is and assigns
    the audio source from the song it was started for, the fetched URL
    (also written to the cache slot) or, on failure, that song's own
    source. *)
Theorem superseded_acquisition (st : State) (A B : Song.t) :
  (let st2 := playSong (playSong st A) B in
   currentSong st2 = Some B ∧
   Audio.src (audio st2) = Song.audioSrc B) ∧
  (∀ s r now,
     currentSong (playSettled s r now) = currentSong s ∧
     audio (playSettled s r now) = audio s) ∧
  currentSong (Cached.playSong (Cached.playSong st A).1 B).1 = Some B ∧
  (∀ s song r,
     currentSong (Cached.fetchSettled s song r) = currentSong s) ∧
  (∀ s song objectUrl,
     let s' := Cached.fetchSettled s song (Some objectUrl) in
     Audio.src (audio s') = objectUrl ∧
     localStorage s' !! Cached.tempSongCacheKey
       = Some (JSON_stringify (CacheEntry.mk (Song.id song) objectUrl))) ∧
  (∀ s song,
     Audio.src (audio (Cached.fetchSettled s song None))
       = Song.audioSrc song).
Proof.
  split_and!.
  - done.
  - intros s [| |] now; [apply savePlaybackState_keeps | done | done].
  - apply cached_playSong_currentSong.
  - by intros s song [url|].
  - intros s song url. simpl. split; [done | apply lookup_insert_eq].
  - done.
Qed.

End AcquisitionFacts.

(** ** Resumption and startup *)

Section SessionFacts.
Context {json_songs : JSON (list Song.t)}
        {json_playlists : JSON (list Playlist.t)}
        {json_snapshot : JSON Snapshot.t}.

Lemma resumeBehindGate_gate (st : State) (state : Snapshot.t) :
  gate_passed (resumeBehindGate st state).2 = true.
Proof.
  unfold resumeBehindGate.
  destruct (find _ (songs st)) as [song|].
  - case_bool_decide; [done|].
    by destruct (bool_decide _ && _ && _).
  - by destruct (bool_decide _ && _ && _).
Qed.

(** The exits of [resumeBehindGate], by the lookup of the snapshot's id
    in the catalog and the state of the current song. *)
Lemma resumeBehindGate_cases (st : State) (state : Snapshot.t) :
  let r := resumeBehindGate st state in
  let found := find (λ s, Song.id s = Snapshot.songId state) (songs st) in
  (attempted r.2 = true ↔
   (∃ song, found = Some song ∧
            Song.id <$> currentSong st ≠ Some (Song.id song)) ∨
   (is_Some (currentSong st) ∧ Audio.paused (audio st) = true ∧
    isPlaying st = true)) ∧
  (attempted r.2 = false → r = (st, NothingToResume)) ∧
  (found = None → currentSong st = None → r = (st, NothingToResume)) ∧
  (∀ song, found = Some song →
     Song.id <$> currentSong st = Some (Song.id song) →
     Audio.paused (audio st) = false →
     r = (st, NothingToResume)) ∧
  ((∀ song, found = Some song →
      Song.id <$> currentSong st = Some (Song.id song)) →
   is_Some (currentSong st) → Audio.paused (audio st) = true →
   isPlaying st = true →
   r = (set_audio (Audio.play (audio st)) st, ResumeCurrent)).
Proof.
  intros r found. subst r found. unfold resumeBehindGate.
  assert (Hidle :
    ∀ P : Prop,
      (P → False) →
      let r := if bool_decide (is_Some (currentSong st))
                  && Audio.paused (audio st) && isPlaying st
               then (set_audio (Audio.play (audio st)) st, ResumeCurrent)
               else (st, NothingToResume) in
      (attempted r.2 = true ↔
       P ∨ (is_Some (currentSong st) ∧ Audio.paused (audio st) = true ∧
            isPlaying st = true)) ∧
      (attempted r.2 = false → r = (st, NothingToResume)) ∧
      (currentSong st = None → r = (st, NothingToResume)) ∧
      (Audio.paused (audio st) = false → r = (st, NothingToResume)) ∧
      (is_Some (currentSong st) → Audio.paused (audio st) = true →
       isPlaying st = true →
       r = (set_audio (Audio.play (audio st)) st, ResumeCurrent))).
  { intros P HP.
    case_bool_decide as Hcur; simpl.
    - destruct (Audio.paused (audio st)) eqn:Hpaused; simpl.
      + destruct (isPlaying st) eqn:Hflag; simpl.
        * split_and!; try done.
          -- split; [by right | done].
          -- intros Hn. rewrite Hn in Hcur. by apply is_Some_None in Hcur.
        * split_and!; try done.
          split; [done | by intros [? | (_ & _ & ?)]].
      + split_and!; try done.
        split; [done | by intros [? | (_ & ? & _)]].
    - split_and!; try done.
      split; [done|].
      intros [? | (? & _)]; exfalso; [by apply HP | by apply Hcur]. }
  destruct (find _ (songs st)) as [song|] eqn:Hfind.
  - destruct (decide (Song.id <$> currentSong st = Some (Song.id song)))
      as [Hsame|Hne].
    2: { rewrite (bool_decide_eq_true_2
                    (Song.id <$> currentSong st ≠ Some (Song.id song)))
           by done.
         cbn [snd attempted]. split_and!.
         - split; [intros _; left; by exists song | done].
         - done.
         - done.
         - by intros song' [= <-] Hsame.
         - intros Hall. by specialize (Hall song eq_refl). }
    rewrite (bool_decide_eq_false_2
               (Song.id <$> currentSong st ≠ Some (Song.id song)))
      by (intros Hd; by apply Hd).
    destruct (Hidle (∃ song0, Some song = Some song0 ∧
                       Song.id <$> currentSong st ≠ Some (Song.id song0)))
      as (H1 & H2 & H3 & H4 & H5).
    { intros (song0 & [= <-] & Hd). by apply Hd. }
    split_and!;
      [exact H1 | exact H2 | done | intros ? _ _ ?; by apply H4
      | intros _; exact H5].
  - destruct (Hidle (∃ song0 : Song.t, None = Some song0 ∧
                       Song.id <$> currentSong st ≠ Some (Song.id song0)))
      as (H1 & H2 & H3 & H4 & H5).
    { by intros (? & ? & _). }
    split_and!;
      [exact H1 | exact H2 | intros _; exact H3 | done | intros _; exact H5].
Qed.

(** Every exit of [resumePlaybackIfNeeded] behind the gate went through
    all its guards. *)
Lemma resume_gate_inv (st : State) (now : Z) :
  gate_passed (resumePlaybackIfNeeded st now).2 = true →
  songsLoaded st = true ∧ songs st ≠ [] ∧
  ∃ text state,
    localStorage st !! "groovePlaybackState" = Some text ∧
    text ≠ "" ∧ JSON_parse text = Some state ∧
    Snapshot.isPlaying state = true ∧
    now - Snapshot.timestamp state < 300000 ∧
    resumePlaybackIfNeeded st now = resumeBehindGate st state.
Proof.
  unfold resumePlaybackIfNeeded.
  destruct (songsLoaded st); simpl; [|done].
  case_bool_decide as Hlen; [done|].
  destruct (localStorage st !! "groovePlaybackState") as [text|] eqn:Hk;
    [|done].
  case_bool_decide as Htext; [done|].
  destruct (JSON_parse text) as [state|] eqn:Hp; [|done].
  case_bool_decide as Hfresh; simpl; [|done].
  destruct (Snapshot.isPlaying state) eqn:Hplay; [|done].
  intros _. split_and!; [done | by intros E; rewrite E in Hlen |].
  exists text, state. done.
Qed.

Lemma attempted_gate (o : ResumeOutcome) :
  attempted o = true → gate_passed o = true.
Proof. by destruct o. Qed.

(** C4, as the code has it.  [resumePlaybackIfNeeded] calls
    [audio.play()] (at once or through the listener it registers) only
    when the songs are loaded, the catalog is not empty and the store
    holds a snapshot text that parses, was playing, and is less than
    300000 ms old.  With songs loaded, a non-empty catalog and such a
    text, the freshness gate is passed exactly when the snapshot was
    playing and [now - timestamp < 300000]; a snapshot of age 300000 ms
    or more, 301 s in particular, changes nothing; behind the gate, 299
    s in particular, a catalog song with the snapshot's id that is not
    the current song is installed as current song and audio source and
    played once its metadata is loaded.  Behind the gate [audio.play()]
    is called exactly in two cases: the catalog has a song with the
    snapshot's id and it is not the current song, or there is a current
    song that is paused while [isPlaying] is set, which is played at
    once.  In every other case nothing changes: so it is when no
    catalog song has the snapshot's id and no song is current, and when
    the snapshot's song is the current one and the audio is not
    paused. *)
Theorem resume_freshness_gate (st : State) (now : Z) :
  (attempted (resumePlaybackIfNeeded st now).2 = true →
   songsLoaded st = true ∧ songs st ≠ [] ∧
   ∃ text state,
     localStorage st !! "groovePlaybackState" = Some text ∧
     JSON_parse text = Some state ∧
     Snapshot.isPlaying state = true ∧
     now - Snapshot.timestamp state < 300000) ∧
  (∀ text state,
     songsLoaded st = true → songs st ≠ [] →
     localStorage st !! "groovePlaybackState" = Some text →
     text ≠ "" →
     JSON_parse text = Some state →
     (gate_passed (resumePlaybackIfNeeded st now).2 = true ↔
      Snapshot.isPlaying state = true ∧
      now - Snapshot.timestamp state < 300000) ∧
     (300000 ≤ now - Snapshot.timestamp state →
      resumePlaybackIfNeeded st now = (st, GateClosed)) ∧
     (Snapshot.timestamp state = now - 301000 →
      resumePlaybackIfNeeded st now = (st, GateClosed)) ∧
     (Snapshot.isPlaying state = false →
      resumePlaybackIfNeeded st now = (st, GateClosed)) ∧
     (Snapshot.isPlaying state = true →
      now - Snapshot.timestamp state < 300000 →
      ∀ song,
        find (λ s, Song.id s = Snapshot.songId state) (songs st)
          = Some song →
        Song.id <$> currentSong st ≠ Some (Song.id song) →
        let r := resumePlaybackIfNeeded st now in
        r.2 = ResumeSong song state ∧ attempted r.2 = true ∧
        currentSong r.1 = Some song ∧
        Audio.src (audio r.1) = Song.audioSrc song ∧
        ∀ duration,
          Audio.paused (audio (handleLoadedMetadata r.1 state duration))
            = false) ∧
     (Snapshot.isPlaying state = true →
      now - Snapshot.timestamp state < 300000 →
      let r := resumePlaybackIfNeeded st now in
      let found := find (λ s, Song.id s = Snapshot.songId state) (songs st) in
      (attempted r.2 = true ↔
       (∃ song, found = Some song ∧
                Song.id <$> currentSong st ≠ Some (Song.id song)) ∨
       (is_Some (currentSong st) ∧ Audio.paused (audio st) = true ∧
        isPlaying st = true)) ∧
      (attempted r.2 = false → r = (st, NothingToResume)) ∧
      (found = None → currentSong st = None →
       r = (st, NothingToResume)) ∧
      (∀ song, found = Some song →
         Song.id <$> currentSong st = Some (Song.id song) →
         Audio.paused (audio st) = false →
         r = (st, NothingToResume)) ∧
      ((∀ song, found = Some song →
          Song.id <$> currentSong st = Some (Song.id song)) →
       is_Some (currentSong st) → Audio.paused (audio st) = true →
       isPlaying st = true →
       r = (set_audio (Audio.play (audio st)) st, ResumeCurrent)))).
Proof.
  split.
  - intros Ha. apply attempted_gate, resume_gate_inv in Ha
      as (Hl & Hs & text & state & H1 & _ & H2 & H3 & H4 & _).
    split_and!; [done..|]. by exists text, state.
  - intros text state Hl Hs Ht Hne Hp.
    assert (Hlen : length (songs st) ≠ 0%nat)
      by (destruct (songs st); [done | simpl; lia]).
    assert (E : resumePlaybackIfNeeded st now =
                if bool_decide (now - Snapshot.timestamp state < 300000)
                   && Snapshot.isPlaying state
                then resumeBehindGate st state else (st, GateClosed)).
    { unfold resumePlaybackIfNeeded. rewrite Hl, Ht, Hp. simpl.
      by rewrite !bool_decide_eq_false_2 by done. }
    split_and!.
    + rewrite E. case_bool_decide as Hf; simpl.
      * destruct (Snapshot.isPlaying state).
        -- split; [done | intros _; apply resumeBehindGate_gate].
        -- split; [done | by intros [? _]].
      * split; [done | intros [_ ?]; lia].
    + intros Hold. rewrite E. by rewrite bool_decide_eq_false_2 by lia.
    + intros Hold. rewrite E. by rewrite bool_decide_eq_false_2 by lia.
    + intros Hnp. rewrite E, Hnp. by rewrite andb_false_r.
    + intros Hplay Hfresh song Hfind Hcur r. subst r. rewrite E.
      rewrite bool_decide_eq_true_2 by done. rewrite Hplay. simpl.
      unfold resumeBehindGate. rewrite Hfind.
      by rewrite bool_decide_eq_true_2 by done.
    + intros Hplay Hfresh r found. subst r found. rewrite E.
      rewrite bool_decide_eq_true_2 by done. rewrite Hplay. simpl.
      destruct (resumeBehindGate_cases st state)
        as (Hatt & Hidle & Hnone & Hsame & Hcur).
      split_and!; done.
Qed.

(** C6, on the code.  The constructor reads both collections with
    [JSON.parse] outside any [try]: a missing key and the empty text
    give the value of ["[]"], and a stored text that [JSON.parse]
    rejects makes the constructor raise [SyntaxError] instead of
    falling back to the empty collection. *)
Theorem construct_malformed_raises (store : gmap string string) :
  (∀ text, text ≠ "" →
     store !! "grooveLikedSongs" = Some text →
     JSON_parse (A := list Song.t) text = None →
     construct store = inl SyntaxError) ∧
  (∀ text, text ≠ "" →
     store !! "groovePlaylists" = Some text →
     JSON_parse (A := list Playlist.t) text = None →
     construct store = inl SyntaxError) ∧
  (JSON_parse (A := list Song.t) "[]" = Some [] →
   JSON_parse (A := list Playlist.t) "[]" = Some [] →
   (store !! "grooveLikedSongs" = None ∨
    store !! "grooveLikedSongs" = Some "") →
   (store !! "groovePlaylists" = None ∨
    store !! "groovePlaylists" = Some "") →
   ∃ st, construct store = inr st ∧
         likedSongs st = [] ∧ playlists st = []).
Proof.
  split_and!.
  - intros text Hne Hk Hp. unfold construct, parseStored. rewrite Hk.
    by rewrite bool_decide_eq_false_2, Hp by done.
  - intros text Hne Hk Hp. unfold construct.
    destruct (parseStored store "grooveLikedSongs"); [|done].
    unfold parseStored. rewrite Hk.
    by rewrite bool_decide_eq_false_2, Hp by done.
  - intros Hs Hp Hl Hpl. unfold construct, parseStored.
    destruct Hl as [-> | ->], Hpl as [-> | ->]; simpl;
      rewrite Hs, Hp; by eexists.
Qed.

End SessionFacts.

(** ** More of the library *)

Section LibraryMore.
Context {json_songs : JSON (list Song.t)}
        {json_playlists : JSON (list Playlist.t)}
        {string_methods : StringMethods}.

(** Altering the songs of the playlist found leaves every id and name in
    place, so the same playlist is found again. *)
Lemma list_find_with_songs (l : list Playlist.t) (playlistId : string)
    (i : nat) (p : Playlist.t) (tracks : list string) :
  list_find (λ q, Playlist.id q = playlistId) l = Some (i, p) →
  list_find (λ q, Playlist.id q = playlistId)
    (alter (Playlist.with_songs tracks) i l)
    = Some (i, Playlist.with_songs tracks p).
Proof.
  intros Hf. apply list_find_Some in Hf as (Hi & Hp & Hfirst).
  apply list_find_Some. split_and!.
  - by rewrite list_lookup_alter_eq, Hi.
  - done.
  - intros j q Hj Hlt. rewrite list_lookup_alter_ne in Hj by lia.
    by apply (Hfirst j).
Qed.

Lemma alter_with_songs_twice (l : list Playlist.t) (i : nat)
    (t1 t2 : list string) :
  alter (Playlist.with_songs t2) i (alter (Playlist.with_songs t1) i l)
    = alter (Playlist.with_songs t2) i l.
Proof.
  rewrite list_alter_alter_eq. by apply list_alter_ext.
Qed.

Lemma alter_with_own_songs (l : list Playlist.t) (i : nat) (p : Playlist.t) :
  l !! i = Some p → alter (Playlist.with_songs (Playlist.songs p)) i l = l.
Proof.
  intros Hi. apply list_eq. intros j. destruct (decide (i = j)) as [<-|Hne].
  - rewrite list_lookup_alter_eq, Hi. by destruct p.
  - by rewrite list_lookup_alter_ne.
Qed.

(** X1. [deletePlaylist(id)] keeps exactly the playlists with another
    id, in their order, and persists; with no playlist of that id the
    collection is as before; deleting again changes nothing more. *)
Theorem deletePlaylist_removes (st : State) (playlistId : string) :
  let st' := deletePlaylist st playlistId in
  (∀ p, p ∈ playlists st' ↔ p ∈ playlists st ∧ Playlist.id p ≠ playlistId) ∧
  playlists st' `sublist_of` playlists st ∧
  ((∀ p, p ∈ playlists st → Playlist.id p ≠ playlistId) →
   playlists st' = playlists st) ∧
  playlists (deletePlaylist st' playlistId) = playlists st' ∧
  likedSongs st' = likedSongs st ∧
  persisted st'.
Proof.
  intros st'. subst st'. unfold deletePlaylist. simpl. split_and!.
  - intros p. rewrite list_elem_of_filter. tauto.
  - apply sublist_filter.
  - intros Hno. by apply filter_none.
  - rewrite list_filter_filter. apply list_filter_iff. tauto.
  - done.
  - apply saveData_persisted.
Qed.

(** X2. A playlist just created is removed again by [deletePlaylist] on
    its id: when no stored playlist carries the decimal text of the
    clock as id, creating and then deleting restores the collection. *)
Theorem create_then_delete (st : State) (input : string) (now : Z) :
  (∀ p, p ∈ playlists st → Playlist.id p ≠ pretty now) →
  playlists (deletePlaylist (createPlaylist st input now).1 (pretty now))
    = playlists st.
Proof.
  intros Hfresh. unfold deletePlaylist. simpl.
  destruct (createPlaylist_cases st input now)
    as [[-> _]|[(-> & _)|(-> & _)]]; simpl.
  - by apply filter_none.
  - by apply filter_none.
  - rewrite filter_app, filter_none by done.
    rewrite filter_cons_False by (intros Hc; by apply Hc).
    by rewrite filter_nil, app_nil_r.
Qed.

(** X3. Removing a song right after adding it undoes the addition: when
    the playlist exists, the song is in the catalog and was not in the
    playlist, the collection is as before. *)
Theorem add_then_remove (st : State) (playlistId songId : string)
    (i : nat) (p : Playlist.t) (song : Song.t) :
  list_find (λ q, Playlist.id q = playlistId) (playlists st) = Some (i, p) →
  find (λ s, Song.id s = songId) (songs st) = Some song →
  songId ∉ Playlist.songs p →
  let st1 := addToPlaylist st playlistId songId in
  songId ∈ Playlist.songs (default p (playlists st1 !! i)) ∧
  playlists (removeFromPlaylist st1 playlistId songId) = playlists st.
Proof.
  intros Hp Hs Hnin st1.
  assert (E1 : playlists st1
               = alter (Playlist.with_songs (Playlist.songs p ++ [songId]))
                   i (playlists st)).
  { subst st1. unfold addToPlaylist. rewrite Hp, Hs. unfold includes.
    by rewrite bool_decide_eq_false_2 by done. }
  assert (Hs1 : songs st1 = songs st).
  { subst st1. unfold addToPlaylist. rewrite Hp, Hs. unfold includes.
    by rewrite bool_decide_eq_false_2 by done. }
  assert (Hi : playlists st !! i = Some p)
    by (by apply list_find_Some in Hp as (? & _)).
  split.
  - rewrite E1, list_lookup_alter_eq, Hi. simpl.
    apply elem_of_app. right. by left.
  - unfold removeFromPlaylist. rewrite Hs1, Hs, E1.
    rewrite (list_find_with_songs _ _ _ _ _ Hp). simpl.
    rewrite alter_with_songs_twice, filter_app.
    rewrite (filter_none _ (Playlist.songs p)) by (intros x Hx ->; done).
    rewrite filter_cons_False by (intros Hc; by apply Hc).
    rewrite filter_nil, app_nil_r. by apply alter_with_own_songs.
Qed.

(** X4. The detail view of a playlist shows, in the order of the
    playlist, the catalog song of each id that is in the catalog and
    nothing for an id that is not: the ids shown are the listed ids that
    are catalog ids, and every song shown is a catalog song. *)
Theorem playlistSongs_filters_dangling (st : State) (playlist : Playlist.t) :
  Song.id <$> playlistSongs st playlist
    = filter (λ songId, songId ∈ Song.id <$> songs st)
        (Playlist.songs playlist) ∧
  (∀ s, s ∈ playlistSongs st playlist →
        s ∈ songs st ∧ Song.id s ∈ Playlist.songs playlist) ∧
  ((∀ songId, songId ∈ Playlist.songs playlist →
              songId ∈ Song.id <$> songs st) →
   length (playlistSongs st playlist) = length (Playlist.songs playlist)).
Proof.
  unfold playlistSongs.
  assert (Hfind : ∀ songId,
             match find (λ s, Song.id s = songId) (songs st) with
             | Some s => s ∈ songs st ∧ Song.id s = songId
             | None => songId ∉ Song.id <$> songs st
             end).
  { intros songId. destruct (find _ (songs st)) as [s|] eqn:E.
    - by apply find_Some in E.
    - apply find_None in E. rewrite Forall_forall in E.
      intros (s & -> & Hs)%list_elem_of_fmap. by apply (E s). }
  induction (Playlist.songs playlist) as [|songId tracks IH].
  { split_and!; [done | | done]. intros s Hs. by apply elem_of_nil in Hs. }
  destruct IH as (IH1 & IH2 & IH3). simpl.
  specialize (Hfind songId).
  destruct (find (λ s, Song.id s = songId) (songs st)) as [s|];
    change (list_omap string Song.t) with (@omap list _ string Song.t).
  - destruct Hfind as [Hin Hid]. split_and!.
    + rewrite filter_cons_True
        by (apply list_elem_of_fmap; exists s; by split).
      by rewrite fmap_cons, Hid, IH1.
    + intros s' [->|Hs']%elem_of_cons.
      * split; [done | rewrite Hid; by left].
      * destruct (IH2 s' Hs'). split; [done | by right].
    + intros Hall. simpl. f_equal. apply IH3. intros x Hx. apply Hall.
      by right.
  - split_and!.
    + by rewrite filter_cons_False.
    + intros s' Hs'. destruct (IH2 s' Hs'). split; [done | by right].
    + intros Hall. destruct Hfind. apply Hall. by left.
Qed.

(** X5. A click on an option of the add-to-playlist modal flips the
    membership of the current song in that playlist, when the option's
    playlist is the first of its id, the flag shown is up to date and
    the current song's id is a catalog id; the other ids of the playlist
    stay. *)
Theorem optionClicked_flips (st : State) (i : nat) (p : Playlist.t)
    (current song : Song.t) :
  currentSong st = Some current →
  list_find (λ q, Playlist.id q = Playlist.id p) (playlists st)
    = Some (i, p) →
  find (λ s, Song.id s = Song.id current) (songs st) = Some song →
  ∃ st' p',
    optionClicked st p (optionFlag st p) = Returned st' ∧
    playlists st' !! i = Some p' ∧
    Playlist.id p' = Playlist.id p ∧ Playlist.name p' = Playlist.name p ∧
    (Song.id current ∈ Playlist.songs p' ↔
     Song.id current ∉ Playlist.songs p) ∧
    (∀ x, x ≠ Song.id current →
          (x ∈ Playlist.songs p' ↔ x ∈ Playlist.songs p)).
Proof.
  intros Hcur Hp Hs. unfold optionClicked, optionFlag. rewrite Hcur.
  assert (Hi : playlists st !! i = Some p)
    by (by apply list_find_Some in Hp as (? & _)).
  unfold includes. case_bool_decide as Hin.
  - eexists _, _. split; [done|].
    unfold removeFromPlaylist. rewrite Hp, Hs. simpl.
    rewrite list_lookup_alter_eq, Hi. simpl.
    split_and!; [done..| |]; unfold Playlist.with_songs; simpl.
    + rewrite list_elem_of_filter. split; [by intros [? _] | done].
    + intros x Hx. rewrite list_elem_of_filter. split; [by intros [_ ?] | done].
  - eexists _, _. split; [done|].
    unfold addToPlaylist. rewrite Hp, Hs. unfold includes.
    rewrite bool_decide_eq_false_2 by done. simpl.
    rewrite list_lookup_alter_eq, Hi. simpl.
    split_and!; [done..| |]; unfold Playlist.with_songs; simpl.
    + rewrite elem_of_app, list_elem_of_singleton. split; [done | by right].
    + intros x Hx. rewrite elem_of_app, list_elem_of_singleton.
      split; [by intros [?|?] | by left].
Qed.

End LibraryMore.

(** ** Runs of events *)

Section RunFacts.
Context {json_songs : JSON (list Song.t)}
        {json_playlists : JSON (list Playlist.t)}
        {json_snapshot : JSON Snapshot.t}
        {string_methods : StringMethods}.

(** *** What the playback handlers leave alone *)

Lemma playSong_undefined_frame (st : State) :
  library_of (state_of (playSong_undefined st)) = library_of st.
Proof. unfold playSong_undefined. by destruct (selected st). Qed.

Lemma nextSong_frame (st : State) :
  library_of (state_of (nextSong st)) = library_of st.
Proof.
  unfold nextSong. case_bool_decide; [done|].
  destruct (at_index _ _); [done|]. by rewrite playSong_undefined_frame.
Qed.

Lemma previousSong_frame (st : State) :
  library_of (state_of (previousSong st)) = library_of st.
Proof.
  unfold previousSong. case_bool_decide; [done|].
  destruct (at_index _ _); [done|]. by rewrite playSong_undefined_frame.
Qed.

Lemma togglePlayPause_frame (st : State) :
  library_of (togglePlayPause st) = library_of st.
Proof.
  unfold togglePlayPause. destruct (currentSong st); [|done].
  by destruct (Audio.paused (audio st)).
Qed.

Lemma handleSearch_frame (st : State) (query : string) :
  library_of (handleSearch st query) = library_of st.
Proof. unfold handleSearch. by case_bool_decide. Qed.

Lemma savePlaybackState_frame (st : State) (now : Z) :
  library_of (savePlaybackState st now) = library_of st.
Proof.
  unfold savePlaybackState. destruct (currentSong st); [|done].
  unfold library_of. simpl. by rewrite !lookup_insert_ne by done.
Qed.

Lemma resumeBehindGate_frame (st : State) (state : Snapshot.t) :
  library_of (resumeBehindGate st state).1 = library_of st ∧
  currentIndex (resumeBehindGate st state).1 = currentIndex st.
Proof.
  unfold resumeBehindGate. destruct (find _ (songs st)) as [song|].
  - case_bool_decide; [done|]. by destruct (bool_decide _ && _ && _).
  - by destruct (bool_decide _ && _ && _).
Qed.

Lemma resume_frame (st : State) (now : Z) :
  library_of (resumePlaybackIfNeeded st now).1 = library_of st ∧
  currentIndex (resumePlaybackIfNeeded st now).1 = currentIndex st.
Proof.
  unfold resumePlaybackIfNeeded.
  destruct (negb (songsLoaded st) || _); [done|].
  destruct (localStorage st !! "groovePlaybackState") as [text|]; [|done].
  case_bool_decide; [done|].
  destruct (JSON_parse text) as [state|]; [|done].
  destruct (bool_decide _ && _); [|done]. apply resumeBehindGate_frame.
Qed.

Lemma playSettled_frame (st : State) (r : PlayResult) (now : Z) :
  library_of (playSettled st r now) = library_of st.
Proof. destruct r; [apply savePlaybackState_frame | done | done]. Qed.

(** *** What the library handlers do *)

(** Every handler either leaves the library as it is or is one of the
    five library operations. *)
Inductive library_change (st : State) : State → Prop :=
  | lc_same st' : library_of st' = library_of st → library_change st st'
  | lc_toggle songId : library_change st (toggleSongLike st songId)
  | lc_create input now :
      library_change st (createPlaylist st input now).1
  | lc_delete playlistId : library_change st (deletePlaylist st playlistId)
  | lc_add playlistId songId :
      library_change st (addToPlaylist st playlistId songId)
  | lc_remove playlistId songId :
      library_change st (removeFromPlaylist st playlistId songId).

Lemma dispatch_library_change (st : State) (ev : Event) :
  library_change st (state_of (dispatch st ev)).
Proof.
  destruct ev; simpl; try (by constructor).
  - unfold toggleLike. destruct (currentSong st); by constructor.
  - apply lc_same, togglePlayPause_frame.
  - apply lc_same, previousSong_frame.
  - apply lc_same, nextSong_frame.
  - unfold handleKeyboard. repeat case_bool_decide; simpl.
    + by constructor.
    + apply lc_same, togglePlayPause_frame.
    + apply lc_same, nextSong_frame.
    + apply lc_same, previousSong_frame.
    + unfold toggleLike. destruct (currentSong st); by constructor.
    + by constructor.
  - unfold mediaSessionAction. repeat case_bool_decide; simpl.
    + apply lc_same, togglePlayPause_frame.
    + apply lc_same, togglePlayPause_frame.
    + apply lc_same, previousSong_frame.
    + apply lc_same, nextSong_frame.
    + by constructor.
  - apply lc_same, nextSong_frame.
  - apply lc_same, handleSearch_frame.
  - apply lc_same. unfold focusTimerFired. apply resume_frame.
  - apply lc_same, savePlaybackState_frame.
  - apply lc_same, playSettled_frame.
Qed.

(** An invariant of the library kept by the five operations is kept by
    every run of events. *)
Lemma run_library_invariant (I : State → Prop) :
  (∀ st st', library_of st' = library_of st → I st → I st') →
  (∀ st songId, I st → I (toggleSongLike st songId)) →
  (∀ st input now, I st → I (createPlaylist st input now).1) →
  (∀ st playlistId, I st → I (deletePlaylist st playlistId)) →
  (∀ st playlistId songId, I st → I (addToPlaylist st playlistId songId)) →
  (∀ st playlistId songId,
     I st → I (removeFromPlaylist st playlistId songId)) →
  ∀ events st, I st → I (run st events).
Proof.
  intros Hsame Htoggle Hcreate Hdelete Hadd Hremove.
  induction events as [|ev events IH]; intros st HI; [done|].
  simpl. apply IH.
  destruct (dispatch_library_change st ev); eauto.
Qed.

Lemma toggleSongLike_cases (st : State) (songId : string) :
  toggleSongLike st songId = st ∨
  ∃ song, song ∈ songs st ∧ Song.id song = songId ∧
    (toggleSongLike st songId
       = saveData
           (set_likedSongs
              (filter (λ s, Song.id s ≠ songId) (likedSongs st)) st) ∨
     (songId ∉ Song.id <$> likedSongs st) ∧
     toggleSongLike st songId
       = saveData (set_likedSongs (likedSongs st ++ [song]) st)).
Proof.
  unfold toggleSongLike.
  destruct (find _ (songs st)) as [song|] eqn:Es; [|by left].
  right. exists song. apply find_Some in Es as [Hin Hid].
  split_and!; [done..|].
  destruct (some _ (likedSongs st)) eqn:Hl; [by left|].
  right. split; [|done]. rewrite <- liked_iff_id, Hl. done.
Qed.

Lemma addToPlaylist_cases (st : State) (playlistId songId : string) :
  addToPlaylist st playlistId songId = st ∨
  ∃ i p,
    playlists st !! i = Some p ∧ (songId ∉ Playlist.songs p) ∧
    songId ∈ Song.id <$> songs st ∧
    addToPlaylist st playlistId songId
      = saveData
          (set_playlists
             (alter (Playlist.with_songs (Playlist.songs p ++ [songId]))
                i (playlists st)) st).
Proof.
  unfold addToPlaylist.
  destruct (list_find _ (playlists st)) as [[i p]|] eqn:Ep; [|by left].
  destruct (find _ (songs st)) as [song|] eqn:Es; [|by left].
  unfold includes. case_bool_decide as Hin; [by left|].
  right. exists i, p. apply list_find_Some in Ep as (Hi & _).
  apply find_Some in Es as [Hs Hid].
  split_and!; [done..| |done].
  apply list_elem_of_fmap. by exists song.
Qed.

Lemma removeFromPlaylist_cases (st : State) (playlistId songId : string) :
  removeFromPlaylist st playlistId songId = st ∨
  ∃ i p,
    playlists st !! i = Some p ∧
    removeFromPlaylist st playlistId songId
      = saveData
          (set_playlists
             (alter
                (Playlist.with_songs
                   (filter (λ s, s ≠ songId) (Playlist.songs p)))
                i (playlists st)) st).
Proof.
  unfold removeFromPlaylist.
  destruct (list_find _ (playlists st)) as [[i p]|] eqn:Ep; [|by left].
  destruct (find _ (songs st)) as [song|]; [|by left].
  right. exists i, p. by apply list_find_Some in Ep as (Hi & _).
Qed.

(** An element of a list altered at one place is an old element or the
    new one. *)
Lemma elem_of_alter_with_songs (l : list Playlist.t) (i : nat)
    (p q : Playlist.t) (tracks : list string) :
  l !! i = Some p →
  q ∈ alter (Playlist.with_songs tracks) i l →
  q ∈ l ∨ q = Playlist.with_songs tracks p.
Proof.
  intros Hi (j & Hj)%list_elem_of_lookup.
  destruct (decide (i = j)) as [<-|Hne].
  - rewrite list_lookup_alter_eq, Hi in Hj. right. by injection Hj.
  - rewrite list_lookup_alter_ne in Hj by done.
    left. by eapply list_elem_of_lookup_2.
Qed.

Lemma library_of_inv (st st' : State) :
  library_of st' = library_of st →
  songs st' = songs st ∧ likedSongs st' = likedSongs st ∧
  playlists st' = playlists st ∧
  localStorage st' !! "grooveLikedSongs"
    = localStorage st !! "grooveLikedSongs" ∧
  localStorage st' !! "groovePlaylists"
    = localStorage st !! "groovePlaylists".
Proof. unfold library_of. by intros [= -> -> -> -> ->]. Qed.

Lemma fmap_alter_with_songs {B} (g : Playlist.t → B) (l : list Playlist.t)
    (i : nat) (tracks : list string) :
  (∀ p, g (Playlist.with_songs tracks p) = g p) →
  g <$> alter (Playlist.with_songs tracks) i l = g <$> l.
Proof.
  intros Hg. apply list_eq. intros j. rewrite !list_lookup_fmap.
  destruct (decide (i = j)) as [<-|Hne].
  - rewrite list_lookup_alter_eq. destruct (l !! i); simpl; by rewrite ?Hg.
  - by rewrite list_lookup_alter_ne.
Qed.

(** X6. Playlist names that differ pairwise even up to case stay so
    along every run of events: [createPlaylist] is the only handler that
    adds a name and it refuses one already taken. *)
Theorem names_distinct_run (st : State) (events : list Event) :
  names_distinct st → names_distinct (run st events).
Proof.
  revert st. apply run_library_invariant; unfold names_distinct.
  - intros st st' (_ & _ & -> & _)%library_of_inv. done.
  - intros st songId Hnd.
    destruct (toggleSongLike_cases st songId)
      as [->|(song & _ & _ & [->|[_ ->]])]; done.
  - intros st input now Hnd.
    destruct (createPlaylist_cases st input now)
      as [[-> _]|[(-> & _)|(-> & _ & Hfresh)]]; [done|done|].
    simpl. rewrite fmap_app. apply NoDup_app. split_and!.
    + done.
    + intros x (p & -> & Hp)%list_elem_of_fmap Hs. simpl in Hs.
      apply list_elem_of_singleton in Hs. by destruct (Hfresh p).
    + apply NoDup_singleton.
  - intros st playlistId Hnd. simpl.
    eapply sublist_NoDup; [exact Hnd|].
    apply fmap_sublist, sublist_filter.
  - intros st playlistId songId Hnd.
    destruct (addToPlaylist_cases st playlistId songId)
      as [->|(i & p & _ & _ & _ & ->)]; [done|].
    simpl. by rewrite fmap_alter_with_songs.
  - intros st playlistId songId Hnd.
    destruct (removeFromPlaylist_cases st playlistId songId)
      as [->|(i & p & _ & ->)]; [done|].
    simpl. by rewrite fmap_alter_with_songs.
Qed.

(** X7. Liked songs that are catalog songs with pairwise distinct ids
    stay so along every run of events: a song is appended only when its
    id is not liked yet, and it is the catalog's song. *)
Theorem liked_wf_run (st : State) (events : list Event) :
  liked_wf st → liked_wf (run st events).
Proof.
  revert st. apply run_library_invariant; unfold liked_wf.
  - intros st st' (-> & -> & _)%library_of_inv. done.
  - intros st songId [Hnd Hin].
    destruct (toggleSongLike_cases st songId)
      as [->|(song & Hs & Hid & [->|[Hnew ->]])]; [done| |]; simpl.
    + split.
      * eapply sublist_NoDup; [exact Hnd|].
        apply fmap_sublist, sublist_filter.
      * intros s [_ Hs']%list_elem_of_filter. by apply Hin.
    + split.
      * rewrite fmap_app. apply NoDup_app. split_and!; [done| |].
        -- intros x Hx Hx'. simpl in Hx'.
           apply list_elem_of_singleton in Hx'. subst x.
           rewrite Hid in Hx. done.
        -- apply NoDup_singleton.
      * intros s [Hs'|Hs']%elem_of_app; [by apply Hin|].
        apply list_elem_of_singleton in Hs'. by subst.
  - intros st input now H.
    destruct (createPlaylist_cases st input now)
      as [[-> _]|[(-> & _)|(-> & _)]]; done.
  - done.
  - intros st playlistId songId H.
    destruct (addToPlaylist_cases st playlistId songId)
      as [->|(i & p & _ & _ & _ & ->)]; done.
  - intros st playlistId songId H.
    destruct (removeFromPlaylist_cases st playlistId songId)
      as [->|(i & p & _ & ->)]; done.
Qed.

(** X8. Playlists that list catalog ids without repetition stay so along
    every run of events: [addToPlaylist] appends only a catalog id that
    is not listed, and a new playlist is empty. *)
Theorem tracks_wf_run (st : State) (events : list Event) :
  tracks_wf st → tracks_wf (run st events).
Proof.
  revert st. apply run_library_invariant; unfold tracks_wf.
  - intros st st' (-> & _ & -> & _)%library_of_inv. done.
  - intros st songId H.
    destruct (toggleSongLike_cases st songId)
      as [->|(song & _ & _ & [->|[_ ->]])]; done.
  - intros st input now H.
    destruct (createPlaylist_cases st input now)
      as [[-> _]|[(-> & _)|(-> & _)]]; [done|done|].
    simpl. intros p [Hp|Hp]%elem_of_app; [by apply H|].
    apply list_elem_of_singleton in Hp. subst p. simpl.
    split; [constructor | intros x Hx; by apply elem_of_nil in Hx].
  - intros st playlistId H p [_ Hp]%list_elem_of_filter. by apply H.
  - intros st playlistId songId H.
    destruct (addToPlaylist_cases st playlistId songId)
      as [->|(i & p & Hi & Hnew & Hcat & ->)]; [done|].
    simpl. intros q Hq.
    destruct (elem_of_alter_with_songs _ _ _ _ _ Hi Hq) as [Hold| ->];
      [by apply H|].
    destruct (H p) as [Hnd Hin]; [by eapply list_elem_of_lookup_2|].
    simpl. split.
    + apply NoDup_app. split_and!; [done| |apply NoDup_singleton].
      intros x Hx Hx'. apply list_elem_of_singleton in Hx'. by subst.
    + intros x [Hx|Hx]%elem_of_app; [by apply Hin|].
      apply list_elem_of_singleton in Hx. by subst.
  - intros st playlistId songId H.
    destruct (removeFromPlaylist_cases st playlistId songId)
      as [->|(i & p & Hi & ->)]; [done|].
    simpl. intros q Hq.
    destruct (elem_of_alter_with_songs _ _ _ _ _ Hi Hq) as [Hold| ->];
      [by apply H|].
    destruct (H p) as [Hnd Hin]; [by eapply list_elem_of_lookup_2|].
    simpl. split.
    + by apply NoDup_filter.
    + intros x [_ Hx]%list_elem_of_filter. by apply Hin.
Qed.

(** X9. The store mirrors the library along every run of events: once
    both collections are in the store as [saveData] writes them, they
    are after every event, whichever handler ran. *)
Theorem persisted_run (st : State) (events : list Event) :
  persisted st → persisted (run st events).
Proof.
  revert st. apply run_library_invariant.
  - intros st st' (_ & Hl & Hp & Hkl & Hkp)%library_of_inv [H1 H2].
    split; [by rewrite Hkl, Hl | by rewrite Hkp, Hp].
  - intros st songId H.
    destruct (toggleSongLike_cases st songId)
      as [->|(song & _ & _ & [->|[_ ->]])];
      [done | apply saveData_persisted..].
  - intros st input now H.
    destruct (createPlaylist_cases st input now)
      as [[-> _]|[(-> & _)|(-> & _)]];
      [done | done | apply saveData_persisted].
  - intros st playlistId _. apply saveData_persisted.
  - intros st playlistId songId H.
    destruct (addToPlaylist_cases st playlistId songId)
      as [->|(i & p & _ & _ & _ & ->)]; [done | apply saveData_persisted].
  - intros st playlistId songId H.
    destruct (removeFromPlaylist_cases st playlistId songId)
      as [->|(i & p & _ & ->)]; [done | apply saveData_persisted].
Qed.

End RunFacts.

(** ** More of the playback *)

Section PlaybackMore.
Context {json_songs : JSON (list Song.t)}
        {json_playlists : JSON (list Playlist.t)}
        {json_snapshot : JSON Snapshot.t}
        {string_methods : StringMethods}.

Lemma at_index_in_range {A} (l : list A) (j : Z) :
  0 ≤ j < Z.of_nat (length l) → is_Some (at_index l j).
Proof.
  intros Hj. destruct (lookup_lt_is_Some_2 l (Z.to_nat j)) as [x Hx]; [lia|].
  exists x. apply at_index_Some. split; [lia | done].
Qed.

Lemma nextSong_returns (st : State) :
  -1 ≤ currentIndex st →
  ∃ st', nextSong st = Returned st' ∧ -1 ≤ currentIndex st'.
Proof.
  intros Hi. unfold nextSong. case_bool_decide as Hn; [by exists st|].
  simpl.
  destruct (at_index_in_range (currentPlaylist st)
              (Z.rem (currentIndex st + 1)
                 (Z.of_nat (length (currentPlaylist st)))))
    as [song ->]; [apply next_index_range; lia|].
  eexists. split; [done|]. apply playSong_index_range.
Qed.

Lemma previousSong_returns (st : State) :
  -1 ≤ currentIndex st →
  ∃ st', previousSong st = Returned st' ∧ -1 ≤ currentIndex st'.
Proof.
  intros Hi. unfold previousSong. case_bool_decide as Hn; [by exists st|].
  simpl.
  destruct (at_index_in_range (currentPlaylist st)
              (Z.rem (currentIndex st - 1
                      + Z.of_nat (length (currentPlaylist st)))
                 (Z.of_nat (length (currentPlaylist st)))))
    as [song ->]; [apply previous_index_range; lia|].
  eexists. split; [done|]. apply playSong_index_range.
Qed.

Lemma library_handlers_index (st : State) :
  (∀ songId, currentIndex (toggleSongLike st songId) = currentIndex st) ∧
  (∀ input now,
     currentIndex (createPlaylist st input now).1 = currentIndex st) ∧
  (∀ playlistId,
     currentIndex (deletePlaylist st playlistId) = currentIndex st) ∧
  (∀ playlistId songId,
     currentIndex (addToPlaylist st playlistId songId) = currentIndex st) ∧
  (∀ playlistId songId,
     currentIndex (removeFromPlaylist st playlistId songId)
       = currentIndex st).
Proof.
  split_and!.
  - intros songId.
    destruct (toggleSongLike_cases st songId)
      as [->|(song & _ & _ & [->|[_ ->]])]; done.
  - intros input now.
    destruct (createPlaylist_cases st input now)
      as [[-> _]|[(-> & _)|(-> & _)]]; done.
  - done.
  - intros playlistId songId.
    destruct (addToPlaylist_cases st playlistId songId)
      as [->|(i & p & _ & _ & _ & ->)]; done.
  - intros playlistId songId.
    destruct (removeFromPlaylist_cases st playlistId songId)
      as [->|(i & p & _ & ->)]; done.
Qed.

Lemma toggleLike_index (st : State) :
  currentIndex (toggleLike st) = currentIndex st.
Proof.
  unfold toggleLike. destruct (currentSong st); [|done].
  apply library_handlers_index.
Qed.

Lemma togglePlayPause_index (st : State) :
  currentIndex (togglePlayPause st) = currentIndex st.
Proof.
  unfold togglePlayPause. destruct (currentSong st); [|done].
  by destruct (Audio.paused (audio st)).
Qed.

Lemma savePlaybackState_index (st : State) (now : Z) :
  currentIndex (savePlaybackState st now) = currentIndex st.
Proof. unfold savePlaybackState. by destruct (currentSong st). Qed.

Lemma dispatch_returns (st : State) (ev : Event) :
  -1 ≤ currentIndex st →
  ∃ st', dispatch st ev = Returned st' ∧ -1 ≤ currentIndex st'.
Proof.
  intros Hi.
  destruct (library_handlers_index st) as (H1 & H2 & H3 & H4 & H5).
  destruct ev; simpl;
    try (by apply nextSong_returns); try (by apply previousSong_returns);
    try (eexists; split; [done|]).
  - apply playSong_index_range.
  - by rewrite H1.
  - by rewrite toggleLike_index.
  - by rewrite togglePlayPause_index.
  - unfold handleKeyboard. repeat case_bool_decide;
      try (by apply nextSong_returns); try (by apply previousSong_returns);
      eexists; (split; [done|]);
      by rewrite ?togglePlayPause_index, ?toggleLike_index.
  - unfold mediaSessionAction. repeat case_bool_decide;
      try (by apply nextSong_returns); try (by apply previousSong_returns);
      eexists; (split; [done|]); by rewrite ?togglePlayPause_index.
  - unfold handleSearch. by case_bool_decide.
  - by rewrite H2.
  - by rewrite H3.
  - by rewrite H4.
  - by rewrite H5.
  - unfold focusTimerFired.
    by destruct (resume_frame st now) as [_ ->].
  - unfold handleWindowBlur. by rewrite savePlaybackState_index.
  - destruct r; simpl; by rewrite ?savePlaybackState_index.
  - done.
Qed.

(** X10. No run of events makes a handler raise: from an index of at
    least [-1], as the constructor and [playSong] leave it, every ring
    step lands on a song of the current playlist, so [playSong] is never
    called on [undefined], and the index stays at least [-1]. *)
Theorem run_never_raises (st : State) (events : list Event) :
  -1 ≤ currentIndex st →
  raises st events = false ∧ -1 ≤ currentIndex (run st events).
Proof.
  revert st. induction events as [|ev events IH]; intros st Hi; [done|].
  simpl. destruct (dispatch_returns st ev Hi) as (st' & -> & Hi').
  simpl. by apply IH.
Qed.

(** X11. What [playSong] leaves as index is the first position of the
    song's id in the list it selects: the song there has that id and no
    earlier one has; it is [-1] exactly when no song of that list has
    the id. *)
Theorem playSong_index_first (st : State) (song : Song.t) :
  let st' := playSong st song in
  currentSong st' = Some song ∧ currentPlaylist st' = selected st ∧
  (currentIndex st' = -1 ↔ Song.id song ∉ Song.id <$> selected st) ∧
  (currentIndex st' ≠ -1 →
   ∃ found,
     at_index (currentPlaylist st') (currentIndex st') = Some found ∧
     Song.id found = Song.id song ∧
     ∀ j other,
       0 ≤ j < currentIndex st' →
       at_index (currentPlaylist st') j = Some other →
       Song.id other ≠ Song.id song).
Proof.
  intros st'. subst st'. unfold playSong. simpl. unfold findIndex.
  split; [done|]. split; [done|].
  destruct (list_find _ (selected st)) as [[i found]|] eqn:E; simpl.
  - apply list_find_Some in E as (Hi & Hid & Hfirst). split.
    + split; [lia|]. intros Hn. destruct Hn.
      apply list_elem_of_fmap. exists found.
      split; [done | by eapply list_elem_of_lookup_2].
    + intros _. exists found. split_and!.
      * apply at_index_Some. split; [lia | by rewrite Nat2Z.id].
      * done.
      * intros j other Hj (_ & Hj')%at_index_Some.
        apply (Hfirst (Z.to_nat j)); [done | lia].
  - apply list_find_None in E. rewrite Forall_forall in E. split.
    + split; [|done]. intros _ (s & Hid & Hs)%list_elem_of_fmap.
      by apply (E s).
    + done.
Qed.

(** One step round the ring and back. *)
Lemma ring_step_back (i n : Z) :
  0 ≤ i < n →
  Z.rem (Z.rem (i + 1) n - 1 + n) n = i ∧
  Z.rem (Z.rem (i - 1 + n) n + 1) n = i.
Proof.
  intros Hi.
  assert (Hshift : ∀ k, 0 ≤ k < n → Z.rem (k + n) n = k).
  { intros k Hk. rewrite Z.rem_mod_nonneg by lia.
    replace (k + n) with (k + 1 * n) by lia.
    rewrite Z.mod_add by lia. apply Z.mod_small. lia. }
  split.
  - destruct (decide (i + 1 = n)) as [E|E].
    + rewrite E, Z.rem_same by lia.
      replace (0 - 1 + n) with i by lia. apply Z.rem_small. lia.
    + rewrite (Z.rem_small (i + 1)) by lia.
      replace (i + 1 - 1 + n) with (i + n) by lia. by apply Hshift.
  - destruct (decide (i = 0)) as [->|E].
    + replace (0 - 1 + n) with (n - 1) by lia.
      rewrite (Z.rem_small (n - 1)) by lia.
      replace (n - 1 + 1) with n by lia. apply Z.rem_same. lia.
    + replace (i - 1 + n) with ((i - 1) + n) by lia.
      rewrite Hshift by lia.
      replace (i - 1 + 1) with i by lia. apply Z.rem_small. lia.
Qed.

(** X12. Next and previous undo each other: on a current playlist with
    distinct ids that is still the list [playSong] selects, from an
    index inside it, a press of next followed by a press of previous,
    and a press of previous followed by a press of next, end on the
    index they started from, playing the song there. *)
Theorem next_previous_inverse (st : State) (song : Song.t) :
  currentPlaylist st = selected st →
  NoDup (Song.id <$> currentPlaylist st) →
  at_index (currentPlaylist st) (currentIndex st) = Some song →
  (∃ st1 st2,
     nextSong st = Returned st1 ∧ previousSong st1 = Returned st2 ∧
     currentIndex st2 = currentIndex st ∧ currentSong st2 = Some song ∧
     currentPlaylist st2 = currentPlaylist st) ∧
  (∃ st1 st2,
     previousSong st = Returned st1 ∧ nextSong st1 = Returned st2 ∧
     currentIndex st2 = currentIndex st ∧ currentSong st2 = Some song ∧
     currentPlaylist st2 = currentPlaylist st).
Proof.
  intros Hsel Hnd Hsong.
  apply at_index_Some in Hsong as Hrange. destruct Hrange as [Hge Hlk].
  apply lookup_lt_Some in Hlk as Hlt.
  assert (Hne : currentPlaylist st ≠ [])
    by (intros E; rewrite E in Hlt; simpl in Hlt; lia).
  set (n := Z.of_nat (length (currentPlaylist st))) in *.
  assert (Hn : 0 < n) by (subst n; lia).
  assert (Hi : 0 ≤ currentIndex st < n) by (subst n; lia).
  split.
  - destruct (nextSong_step st Hne Hsel Hnd)
      as (s1 & st1 & _ & Hn1 & _ & Hp1 & Hsel1 & Hi1 & _); [lia|].
    fold n in Hi1. rewrite Z.rem_mod_nonneg in Hi1 by lia.
    assert (Hne1 : currentPlaylist st1 ≠ []) by (by rewrite Hp1).
    destruct (previousSong_step st1 Hne1)
      as (s2 & st2 & Hs2 & Hn2 & Hc2 & Hp2 & _ & Hi2 & _).
    { by rewrite Hp1, Hsel1. }
    { by rewrite Hp1. }
    { rewrite Hi1. pose proof (Z.mod_pos_bound (currentIndex st + 1) n).
      lia. }
    rewrite Hp1 in Hs2, Hi2. fold n in Hs2, Hi2.
    assert (Hback : Z.rem (currentIndex st1 - 1 + n) n = currentIndex st).
    { rewrite Hi1, <- Z.rem_mod_nonneg by lia.
      by apply ring_step_back. }
    rewrite Hback in Hs2, Hi2.
    exists st1, st2. split_and!; [done..| |by rewrite Hp2].
    rewrite Hc2. congruence.
  - destruct (previousSong_step st Hne Hsel Hnd)
      as (s1 & st1 & _ & Hn1 & _ & Hp1 & Hsel1 & Hi1 & _); [lia|].
    fold n in Hi1.
    assert (Hr : 0 ≤ Z.rem (currentIndex st - 1 + n) n < n)
      by (apply previous_index_range; lia).
    assert (Hne1 : currentPlaylist st1 ≠ []) by (by rewrite Hp1).
    destruct (nextSong_step st1 Hne1)
      as (s2 & st2 & Hs2 & Hn2 & Hc2 & Hp2 & _ & Hi2 & _).
    { by rewrite Hp1, Hsel1. }
    { by rewrite Hp1. }
    { rewrite Hi1. lia. }
    rewrite Hp1 in Hs2, Hi2. fold n in Hs2, Hi2.
    assert (Hback : Z.rem (currentIndex st1 + 1) n = currentIndex st).
    { rewrite Hi1. by apply ring_step_back. }
    rewrite Hback in Hs2, Hi2.
    exists st1, st2. split_and!; [done..| |by rewrite Hp2].
    rewrite Hc2. congruence.
Qed.

(** X13. [togglePlayPause()] does nothing without a current song; with
    one it flips [audio.paused] and nothing else, so two calls in a row
    leave the instance as it was. *)
Theorem togglePlayPause_twice (st : State) :
  (currentSong st = None → togglePlayPause st = st) ∧
  (is_Some (currentSong st) →
   Audio.paused (audio (togglePlayPause st))
     = negb (Audio.paused (audio st))) ∧
  Audio.src (audio (togglePlayPause st)) = Audio.src (audio st) ∧
  currentSong (togglePlayPause st) = currentSong st ∧
  localStorage (togglePlayPause st) = localStorage st ∧
  togglePlayPause (togglePlayPause st) = st.
Proof.
  unfold togglePlayPause. destruct st as [? ? ? ? cur ? ? ? ? a ? ?]. simpl.
  destruct cur as [s|]; simpl.
  - destruct a as [src [|] t v]; simpl; split_and!; done.
  - split_and!; done.
Qed.

End PlaybackMore.

(** ** What survives a reload *)

Section ReloadFacts.
Context {json_songs : JSON (list Song.t)}
        {json_playlists : JSON (list Playlist.t)}
        {json_snapshot : JSON Snapshot.t}.

(** X14. A playing session is resumed after a reload.  When
    [savePlaybackState] ran at [saved] with a current song, and the host
    reads back the snapshot it wrote, then on an instance with the
    catalog loaded whose store holds that snapshot and whose current
    song is another one or none: called less than 300000 ms later, for
    a snapshot taken while playing, [resumePlaybackIfNeeded] installs
    the catalog's song of that id with the saved volume ([1] for a
    volume of zero), and once the metadata is loaded the position is the
    saved one capped by the duration and [play()] is called; for a
    snapshot taken while paused, or an older one, nothing is resumed. *)
Theorem save_then_resume (st fresh : State) (song song' : Song.t)
    (saved now : Z) :
  let state :=
    Snapshot.mk (Song.id song)
      (number_or (Audio.currentTime (audio st)) 0%Q)
      (isPlaying st && negb (Audio.paused (audio st)))
      saved (Audio.volume (audio st)) in
  currentSong st = Some song →
  JSON_parse (JSON_stringify state) = Some state →
  JSON_stringify state ≠ "" →
  songsLoaded fresh = true →
  localStorage fresh !! "groovePlaybackState"
    = localStorage (savePlaybackState st saved) !! "groovePlaybackState" →
  find (λ s, Song.id s = Song.id song) (songs fresh) = Some song' →
  Song.id <$> currentSong fresh ≠ Some (Song.id song') →
  let r := resumePlaybackIfNeeded fresh now in
  (isPlaying st = true → Audio.paused (audio st) = false →
   now - saved < 300000 →
   r.2 = ResumeSong song' state ∧
   currentSong r.1 = Some song' ∧ Song.id song' = Song.id song ∧
   Audio.src (audio r.1) = Song.audioSrc song' ∧
   Audio.volume (audio r.1) = number_or (Audio.volume (audio st)) 1%Q ∧
   ∀ duration,
     let st2 := handleLoadedMetadata r.1 state duration in
     Audio.paused (audio st2) = false ∧
     Audio.currentTime (audio st2)
       = Qmin (number_or (Audio.currentTime (audio st)) 0%Q) duration ∧
     (Audio.currentTime (audio st2) <= duration)%Q) ∧
  (isPlaying st = false ∨ Audio.paused (audio st) = true ∨
   300000 ≤ now - saved →
   r = (fresh, GateClosed)).
Proof.
  intros state Hcur Hrt Hne Hloaded Hstore Hfind Hother r.
  assert (Htext : localStorage fresh !! "groovePlaybackState"
                  = Some (JSON_stringify state)).
  { rewrite Hstore. unfold savePlaybackState. rewrite Hcur. simpl.
    apply lookup_insert_eq. }
  assert (Hlen : length (songs fresh) ≠ 0%nat).
  { apply find_Some in Hfind as [Hin _].
    destruct (songs fresh); [by apply elem_of_nil in Hin | done]. }
  assert (E : r = if bool_decide (now - saved < 300000)
                     && (isPlaying st && negb (Audio.paused (audio st)))
                  then resumeBehindGate fresh state
                  else (fresh, GateClosed)).
  { subst r. unfold resumePlaybackIfNeeded.
    rewrite Hloaded, Htext, Hrt. simpl.
    by rewrite !bool_decide_eq_false_2 by done. }
  split.
  - intros Hplay Hpaused Hfresh. rewrite E, Hplay, Hpaused.
    rewrite bool_decide_eq_true_2 by done. simpl.
    unfold resumeBehindGate. simpl. rewrite Hfind.
    rewrite bool_decide_eq_true_2 by done. simpl.
    apply find_Some in Hfind as [_ Hid].
    split_and!; [done..|]. intros duration. split_and!; [done..|].
    apply Q.le_min_r.
  - intros Hclosed. rewrite E.
    destruct Hclosed as [-> | [-> | Hold]].
    + by rewrite andb_false_r.
    + by rewrite !andb_false_r.
    + by rewrite bool_decide_eq_false_2 by lia.
Qed.

(** X15. The library survives a reload.  When both collections are in
    the store as [saveData] writes them, and the host reads back the
    two texts it wrote, the constructor run on that store builds an
    instance with the same liked songs and playlists, no catalog yet and
    no current song. *)
Theorem persisted_then_construct (st : State) :
  persisted st →
  JSON_parse (JSON_stringify (likedSongs st)) = Some (likedSongs st) →
  JSON_parse (JSON_stringify (playlists st)) = Some (playlists st) →
  JSON_stringify (likedSongs st) ≠ "" →
  JSON_stringify (playlists st) ≠ "" →
  ∃ st',
    construct (localStorage st) = inr st' ∧
    likedSongs st' = likedSongs st ∧ playlists st' = playlists st ∧
    songs st' = [] ∧ currentSong st' = None ∧ songsLoaded st' = false ∧
    localStorage st' = localStorage st.
Proof.
  intros [Hl Hp] Hrl Hrp Hnl Hnp. unfold construct, parseStored.
  rewrite Hl, Hp.
  rewrite !bool_decide_eq_false_2 by done. rewrite Hrl, Hrp.
  by eexists.
Qed.

(** X23. Losing and regaining the focus on the same instance changes
    nothing but the snapshot.  When the window is blurred with a current
    song and the host reads back the snapshot written, the resumption
    run at the next focus, with no event in between, leaves the instance
    as the blur left it: the snapshot's song is the current one, and a
    snapshot taken while playing was taken with the audio not paused. *)
Theorem blur_then_focus (st : State) (song : Song.t) (blurred now : Z) :
  let state :=
    Snapshot.mk (Song.id song)
      (number_or (Audio.currentTime (audio st)) 0%Q)
      (isPlaying st && negb (Audio.paused (audio st)))
      blurred (Audio.volume (audio st)) in
  currentSong st = Some song →
  JSON_parse (JSON_stringify state) = Some state →
  let st1 := handleWindowBlur st blurred in
  let r := focusTimerFired st1 now in
  r.1 = st1 ∧ attempted r.2 = false ∧
  currentSong r.1 = Some song ∧ audio r.1 = audio st.
Proof.
  intros state Hcur Hrt st1 r.
  assert (E1 : st1 = set_localStorage
                       (<["groovePlaybackState" := JSON_stringify state]>
                          (localStorage st)) st).
  { subst st1. unfold handleWindowBlur, savePlaybackState.
    by rewrite Hcur. }
  assert (Hbehind : resumeBehindGate st1 state = (st1, NothingToResume) ∨
                    Snapshot.isPlaying state = false).
  { destruct (isPlaying st && negb (Audio.paused (audio st))) eqn:Hp;
      [left | by right].
    apply andb_true_iff in Hp as [Hplay Hpaused].
    apply negb_true_iff in Hpaused.
    assert (Hcur1 : currentSong st1 = Some song) by (by rewrite E1).
    assert (Hpaused1 : Audio.paused (audio st1) = false) by (by rewrite E1).
    unfold resumeBehindGate. rewrite Hcur1, Hpaused1.
    rewrite andb_false_r, andb_false_l.
    destruct (find _ (songs st1)) as [song'|] eqn:Ef; [|done].
    apply find_Some in Ef as [_ Hid]. simpl in Hid.
    rewrite bool_decide_eq_false_2; [done|].
    intros H. apply H. simpl. by rewrite Hid. }
  assert (Hr : r = (st1, (r.2)) ∧ attempted r.2 = false).
  { subst r. unfold focusTimerFired, resumePlaybackIfNeeded.
    destruct (negb (songsLoaded st1) || _); [done|].
    assert (Hk : localStorage st1 !! "groovePlaybackState"
                 = Some (JSON_stringify state))
      by (rewrite E1; apply lookup_insert_eq).
    rewrite Hk. case_bool_decide; [done|]. rewrite Hrt.
    cbv zeta. destruct (bool_decide (now - _ < 300000)); [|done].
    rewrite andb_true_l.
    destruct Hbehind as [-> | ->]; [|done].
    by destruct (Snapshot.isPlaying state). }
  destruct Hr as [Hr Ha]. split_and!; [by rewrite Hr | done | |].
  - rewrite Hr. simpl. by rewrite E1.
  - rewrite Hr. simpl. by rewrite E1.
Qed.

End ReloadFacts.

(** ** The cache slot of the caching variant *)

Section CacheSlotFacts.
Context {json_cache : JSON CacheEntry.t}.

(** X16. The song fetched last is played from the cache slot.  After the
    fetch of [song] ended with an object URL, and when the host reads
    back the entry it wrote, [playSong(song)] assigns that URL and calls
    [play()] without fetching, while [playSong] of a song with another
    id is suspended at its fetch; and once that other fetch ended, the
    slot holds the other song, so [playSong(song)] fetches again. *)
Theorem cache_slot_holds_last_fetch (st : State) (song other : Song.t)
    (objectUrl otherUrl : string) :
  let entry := CacheEntry.mk (Song.id song) objectUrl in
  let entry' := CacheEntry.mk (Song.id other) otherUrl in
  JSON_parse (JSON_stringify entry) = Some entry →
  JSON_stringify entry ≠ "" →
  JSON_parse (JSON_stringify entry') = Some entry' →
  JSON_stringify entry' ≠ "" →
  Song.id other ≠ Song.id song →
  let st1 := Cached.fetchSettled st song (Some objectUrl) in
  let hit := Cached.playSong st1 song in
  let miss := Cached.playSong st1 other in
  let st2 := Cached.fetchSettled miss.1 other (Some otherUrl) in
  hit.2 = Cached.Playing ∧
  Audio.src (audio hit.1) = objectUrl ∧
  Audio.paused (audio hit.1) = false ∧
  localStorage hit.1 = localStorage st1 ∧
  miss.2 = Cached.Fetching ∧
  audio miss.1 = audio st1 ∧
  (Cached.playSong st2 song).2 = Cached.Fetching ∧
  (Cached.playSong st2 other).2 = Cached.Playing.
Proof.
  intros entry entry' Hrt Hne Hrt' Hne' Hid st1 hit miss st2.
  assert (Hslot : localStorage st1 !! Cached.tempSongCacheKey
                  = Some (JSON_stringify entry))
    by apply lookup_insert_eq.
  assert (Hhit : hit = (set_audio
                          (Audio.play (Audio.set_src objectUrl
                             (audio st1)))
                          (set_currentIndex
                             (findIndex (λ s, Song.id s = Song.id song)
                                (if bool_decide
                                      (0 < length (filteredSongs st1))%nat
                                 then filteredSongs st1 else songs st1))
                             (set_currentPlaylist
                                (if bool_decide
                                      (0 < length (filteredSongs st1))%nat
                                 then filteredSongs st1 else songs st1)
                                (set_currentSong (Some song) st1))),
                        Cached.Playing)).
  { subst hit. unfold Cached.playSong. simpl. simpl in Hslot.
    rewrite Hslot. rewrite bool_decide_eq_false_2 by done.
    rewrite Hrt. simpl. by rewrite bool_decide_eq_true_2. }
  assert (Hmiss : miss.2 = Cached.Fetching ∧ audio miss.1 = audio st1 ∧
                  localStorage miss.1 = localStorage st1).
  { subst miss. unfold Cached.playSong. simpl. simpl in Hslot.
    rewrite Hslot. rewrite bool_decide_eq_false_2 by done.
    rewrite Hrt. simpl.
    by rewrite bool_decide_eq_false_2 by (intros E; by apply Hid). }
  destruct Hmiss as (Hm1 & Hm2 & Hm3).
  assert (Hslot2 : localStorage st2 !! Cached.tempSongCacheKey
                   = Some (JSON_stringify entry'))
    by apply lookup_insert_eq.
  rewrite Hhit. split_and!; [done..| |].
  - unfold Cached.playSong. simpl. simpl in Hslot2.
    rewrite Hslot2. rewrite bool_decide_eq_false_2 by done.
    rewrite Hrt'. simpl. by rewrite bool_decide_eq_false_2.
  - unfold Cached.playSong. simpl. simpl in Hslot2.
    rewrite Hslot2. rewrite bool_decide_eq_false_2 by done.
    rewrite Hrt'. simpl. by rewrite bool_decide_eq_true_2.
Qed.

(** X17. The two variants of [playSong] agree on the session: whatever
    the cache slot holds, the caching variant leaves the same current
    song, current playlist and current index as [playSong] of
    [app.js], and the same catalog, view, liked songs and playlists. *)
Theorem cached_playSong_session (st : State) (song : Song.t) :
  let st1 := (Cached.playSong st song).1 in
  let st2 := playSong st song in
  currentSong st1 = currentSong st2 ∧
  currentPlaylist st1 = currentPlaylist st2 ∧
  currentIndex st1 = currentIndex st2 ∧
  songs st1 = songs st2 ∧ filteredSongs st1 = filteredSongs st2 ∧
  likedSongs st1 = likedSongs st2 ∧ playlists st1 = playlists st2 ∧
  localStorage st1 = localStorage st.
Proof.
  unfold Cached.playSong, playSong, selected. simpl.
  destruct (localStorage st !! Cached.tempSongCacheKey) as [text|]; [|done].
  case_bool_decide; [done|].
  destruct (JSON_parse text) as [entry|]; [|done].
  by case_bool_decide.
Qed.

End CacheSlotFacts.

(** ** The service worker *)

Module ServiceWorkerFacts.
Import ServiceWorker.

Section Worker.
Variable location_origin : string.

Lemma cachesMatch_None (caches : CacheStorage) (u : string) :
  cachesMatch caches u = None ↔ ∀ nc, nc ∈ caches → nc.2 !! u = None.
Proof.
  induction caches as [|[name cache] rest IH]; simpl.
  - split; [intros _ nc Hnc; by apply elem_of_nil in Hnc | done].
  - destruct (cache !! u) as [r|] eqn:E.
    + split; [done|]. intros H. specialize (H (name, cache)).
      simpl in H. rewrite E in H. discriminate H. by left.
    + rewrite IH. split.
      * intros H nc [->|Hnc]%elem_of_cons; [done | by apply H].
      * intros H nc Hnc. apply H. by right.
Qed.

Lemma cachesMatch_Some (caches : CacheStorage) (u : string) (r : Response) :
  cachesMatch caches u = Some r → ∃ nc, nc ∈ caches ∧ nc.2 !! u = Some r.
Proof.
  induction caches as [|[name cache] rest IH]; simpl; [done|].
  destruct (cache !! u) as [r'|] eqn:E.
  - intros [= ->]. exists (name, cache). split; [by left | done].
  - intros (nc & Hnc & Hr)%IH. exists nc. split; [by right | done].
Qed.

(** The caches after [cachePut]: each is an old one, with the entry
    added when it is the cache of that name; and a cache of that name is
    among them. *)
Lemma elem_of_cachePut (name u : string) (r : Response)
    (caches : CacheStorage) (nc : string * Cache) :
  nc ∈ cachePut name u r caches →
  (nc ∈ caches ∧ nc.1 ≠ name) ∨
  (nc.1 = name ∧
   ∃ old, nc.2 = <[u := r]> old ∧ ((name, old) ∈ caches ∨ old = ∅)).
Proof.
  unfold cachePut, cachesOpen.
  intros ([n c] & -> & Hin)%list_elem_of_fmap. simpl.
  assert (Hold : (n, c) ∈ caches ∨ (n, c) = (name, ∅)).
  { case_bool_decide; [by left|].
    apply elem_of_app in Hin as [?|Hin]; [by left|].
    apply list_elem_of_singleton in Hin. by right. }
  clear Hin. case_bool_decide as Hn; simpl.
  - right. split; [done|]. exists c. split; [done|]. subst n.
    destruct Hold as [?|[= ->]]; [by left | by right].
  - left. split; [|done]. destruct Hold as [?|[= -> _]]; done.
Qed.

Lemma cachePut_has_cache (name u : string) (r : Response)
    (caches : CacheStorage) :
  ∃ nc, nc ∈ cachePut name u r caches ∧ nc.1 = name ∧ nc.2 !! u = Some r.
Proof.
  unfold cachePut, cachesOpen.
  assert (Hex : ∃ c, (name, c) ∈
                  (if bool_decide (name ∈ caches.*1) then caches
                   else caches ++ [(name, ∅)])).
  { case_bool_decide as Hin.
    - apply list_elem_of_fmap in Hin as ([n c] & -> & Hin). by exists c.
    - exists ∅. apply elem_of_app. right. by left. }
  destruct Hex as [c Hc]. exists (name, <[u := r]> c). split_and!.
  - apply list_elem_of_fmap. exists (name, c). simpl.
    by rewrite bool_decide_eq_true_2.
  - done.
  - apply lookup_insert_eq.
Qed.

Lemma cachesMatch_app_empty (caches : CacheStorage) (name u : string) :
  cachesMatch (caches ++ [(name, ∅)]) u = cachesMatch caches u.
Proof.
  induction caches as [|[n c] rest IH]; simpl; [done|].
  by destruct (c !! u).
Qed.

Lemma cachesMatch_cachePut_ne (name u v : string) (r : Response)
    (caches : CacheStorage) :
  u ≠ v → cachesMatch (cachePut name u r caches) v = cachesMatch caches v.
Proof.
  intros Hne. unfold cachePut, cachesOpen.
  transitivity (cachesMatch
                  (if bool_decide (name ∈ caches.*1) then caches
                   else caches ++ [(name, ∅)]) v).
  - induction (if bool_decide (name ∈ caches.*1) then caches
               else caches ++ [(name, ∅)]) as [|[n c] rest IH]; [done|].
    rewrite fmap_cons. cbn [fst snd].
    case_bool_decide; cbn [cachesMatch fst snd].
    + rewrite lookup_insert_ne by done. by rewrite IH.
    + by rewrite IH.
  - case_bool_decide; [done | apply cachesMatch_app_empty].
Qed.

Lemma cachesMatch_cachePut_eq (name u : string) (r : Response)
    (caches : CacheStorage) :
  cachesMatch caches u = None →
  cachesMatch (cachePut name u r caches) u = Some r.
Proof.
  intros Hmiss.
  destruct (cachesMatch (cachePut name u r caches) u) as [r'|] eqn:E.
  - apply cachesMatch_Some in E as (nc & Hnc & Hr).
    apply elem_of_cachePut in Hnc
      as [[Hold _]|(_ & old & Hnew & _)].
    + rewrite cachesMatch_None in Hmiss. rewrite (Hmiss nc Hold) in Hr.
      discriminate.
    + rewrite Hnew, lookup_insert_eq in Hr. by injection Hr as ->.
  - rewrite cachesMatch_None in E.
    destruct (cachePut_has_cache name u r caches) as (nc & Hnc & _ & Hr).
    rewrite (E nc Hnc) in Hr. discriminate.
Qed.

(** What [onFetch] does to the caches: nothing, or one [put] of a
    response of status 200 for a URL that is no audio file and that no
    cache held. *)
Lemma onFetch_caches (caches : CacheStorage) (request : Request)
    (network : option Response) :
  (onFetch location_origin caches request network).2 = caches ∨
  ∃ r, network = Some r ∧ status r = 200 ∧
       isAudio (url request) = false ∧
       cachesMatch caches (url request) = None ∧
       (origin request ≠ location_origin ∨
        pathname request ∈ STATIC_FILES) ∧
       onFetch location_origin caches request network
         = (Some r, cachePut DYNAMIC_CACHE (url request) r caches).
Proof.
  unfold onFetch. destruct (isAudio (url request)) eqn:Ha.
  - left. by destruct network.
  - destruct (cachesMatch caches (url request)) eqn:Hm; [by left|].
    destruct network as [r|].
    + destruct (bool_decide (status r = 200)) eqn:Hs; simpl; [|by left].
      destruct (bool_decide (origin request ≠ location_origin)
                || includes (pathname request) STATIC_FILES) eqn:Hc;
        [|by left].
      right. exists r. apply bool_decide_eq_true in Hs.
      split_and!; [done..| |done].
      apply orb_true_iff in Hc as [Hc|Hc].
      * left. by apply bool_decide_eq_true in Hc.
      * right. by apply bool_decide_eq_true in Hc.
    + left. by case_bool_decide.
Qed.

(** X18. Audio is never cached.  A request whose URL contains one of the
    five audio suffixes is answered by the network, or by a 404 when the
    network fails, whatever the caches hold, and leaves the caches as
    they are; and caches that hold no audio URL hold none after any run
    of requests. *)
Theorem audio_never_cached (caches : CacheStorage) :
  (∀ request network,
     isAudio (url request) = true →
     onFetch location_origin caches request network
       = (Some (default (mkResponse 404 "Audio file unavailable") network),
          caches)) ∧
  ((∀ nc u, nc ∈ caches → is_Some (nc.2 !! u) → isAudio u = false) →
   ∀ requests nc u,
     nc ∈ onFetches location_origin caches requests →
     is_Some (nc.2 !! u) → isAudio u = false).
Proof.
  split.
  - intros request network Ha. unfold onFetch. rewrite Ha.
    by destruct network.
  - intros Hclean requests. revert caches Hclean.
    induction requests as [|[request network] requests IH];
      intros caches Hclean; [done|].
    unfold onFetches. simpl. apply IH.
    destruct (onFetch_caches caches request network)
      as [->|(r & _ & _ & Ha & _ & _ & ->)]; [done|].
    simpl. intros nc u Hnc Hu.
    apply elem_of_cachePut in Hnc as [[Hold _]|(_ & old & Hnew & Hold)].
    + by apply (Hclean nc).
    + rewrite Hnew in Hu. destruct (decide (url request = u)) as [<-|Hne];
        [done|]. rewrite lookup_insert_ne in Hu by done.
      destruct Hold as [Hold| ->].
      * by apply (Hclean (DYNAMIC_CACHE, old)).
      * rewrite lookup_empty in Hu. by destruct Hu.
Qed.

(** X19. The fetch handler writes to the dynamic cache only, and only
    successful responses: any cache of another name is the same after
    any run of requests, and a dynamic cache that holds only responses
    of status 200 holds only such responses afterwards. *)
Theorem dynamic_cache_only_ok (caches : CacheStorage)
    (requests : list (Request * option Response)) :
  (∀ name cache,
     name ≠ DYNAMIC_CACHE →
     (name, cache) ∈ onFetches location_origin caches requests ↔
     (name, cache) ∈ caches) ∧
  ((∀ cache u r, (DYNAMIC_CACHE, cache) ∈ caches →
                 cache !! u = Some r → status r = 200) →
   ∀ cache u r,
     (DYNAMIC_CACHE, cache) ∈ onFetches location_origin caches requests →
     cache !! u = Some r → status r = 200).
Proof.
  revert caches. induction requests as [|[request network] requests IH];
    intros caches; [done|].
  unfold onFetches. simpl.
  destruct (IH (onFetch location_origin caches request network).2)
    as [IH1 IH2].
  destruct (onFetch_caches caches request network)
    as [E|(r & _ & Hs & _ & _ & _ & E)]; rewrite E in *; [done|].
  simpl in *. split.
  - intros name cache Hname. rewrite (IH1 name cache Hname). split.
    + intros [[? _]|[? _]]%elem_of_cachePut; done.
    + intros Hin. unfold cachePut. apply list_elem_of_fmap.
      exists (name, cache). simpl.
      rewrite bool_decide_eq_false_2 by done. split; [done|].
      unfold cachesOpen. case_bool_decide; [done|].
      apply elem_of_app. by left.
  - intros Hok. apply IH2. intros cache u r' Hin Hu.
    apply elem_of_cachePut in Hin as [[_ ?]|(_ & old & Hnew & Hold)];
      [done|].
    simpl in Hnew. rewrite Hnew in Hu.
    destruct (decide (url request = u)) as [<-|Hne].
    + rewrite lookup_insert_eq in Hu. by injection Hu as <-.
    + rewrite lookup_insert_ne in Hu by done.
      destruct Hold as [Hold| ->]; [by apply (Hok old u)|].
      by rewrite lookup_empty in Hu.
Qed.

(** X20. Cache first, and what was cached is replayed.  A request that
    is no audio file and that some cache holds is answered from the
    cache, whatever the network does, and leaves the caches as they
    are.  After a miss answered by the network with status 200, for a
    URL of another origin or one of the static paths, the same request
    is answered with that response from then on, also when the network
    is down. *)
Theorem cached_response_replayed (caches : CacheStorage)
    (request : Request) :
  isAudio (url request) = false →
  (∀ cached network,
     cachesMatch caches (url request) = Some cached →
     onFetch location_origin caches request network
       = (Some cached, caches)) ∧
  (∀ r,
     cachesMatch caches (url request) = None →
     status r = 200 →
     origin request ≠ location_origin ∨ pathname request ∈ STATIC_FILES →
     let first := onFetch location_origin caches request (Some r) in
     first.1 = Some r ∧
     ∀ network,
       onFetch location_origin first.2 request network
         = (Some r, first.2)).
Proof.
  intros Ha. split.
  - intros cached network Hm. unfold onFetch. by rewrite Ha, Hm.
  - intros r Hm Hs Hc first.
    assert (E : first = (Some r,
                         cachePut DYNAMIC_CACHE (url request) r caches)).
    { subst first. unfold onFetch. rewrite Ha, Hm.
      rewrite (bool_decide_eq_true_2 _ Hs). simpl.
      destruct Hc as [Hc|Hc].
      - by rewrite (bool_decide_eq_true_2 _ Hc).
      - unfold includes. rewrite (bool_decide_eq_true_2 _ Hc).
        by rewrite orb_true_r. }
    rewrite E. simpl. split; [done|]. intros network.
    unfold onFetch. rewrite Ha.
    by rewrite (cachesMatch_cachePut_eq _ _ _ _ Hm).
Qed.

(** X21. Activation keeps the two current caches and nothing else: the
    caches left are those named as the static or the dynamic cache, in
    their order and with their contents; activating again changes
    nothing; and [clearCache()] leaves no cache at all. *)
Theorem activate_keeps_current (caches : CacheStorage) :
  (∀ nc, nc ∈ onActivate caches ↔
         nc ∈ caches ∧ (nc.1 = STATIC_CACHE ∨ nc.1 = DYNAMIC_CACHE)) ∧
  onActivate caches `sublist_of` caches ∧
  onActivate (onActivate caches) = onActivate caches ∧
  (∀ u, (∀ nc, nc ∈ caches →
               nc.1 = STATIC_CACHE ∨ nc.1 = DYNAMIC_CACHE) →
        cachesMatch (onActivate caches) u = cachesMatch caches u) ∧
  clearCache caches = [].
Proof.
  unfold onActivate. split_and!.
  - intros nc. rewrite list_elem_of_filter.
    destruct (decide (nc.1 = STATIC_CACHE));
      destruct (decide (nc.1 = DYNAMIC_CACHE)); tauto.
  - apply sublist_filter.
  - rewrite list_filter_filter. apply list_filter_iff. tauto.
  - intros u Hall. rewrite filter_none; [done|].
    intros nc Hnc [H1 H2]. by destruct (Hall nc Hnc).
  - unfold clearCache.
    assert (Hgen : ∀ names (l : CacheStorage),
               foldl (λ acc name,
                        filter (λ nc : string * Cache, nc.1 ≠ name) acc)
                 l names
               = filter (λ nc : string * Cache, nc.1 ∉ names) l).
    { induction names as [|name names IH]; intros l; simpl.
      - symmetry. apply filter_none. intros nc _. apply not_elem_of_nil.
      - rewrite IH, list_filter_filter. apply list_filter_iff.
        intros nc. rewrite not_elem_of_cons. tauto. }
    rewrite Hgen.
    assert (Hnone : ∀ (l : CacheStorage) (names : list string),
               (∀ nc, nc ∈ l → nc.1 ∈ names) →
               filter (λ nc : string * Cache, nc.1 ∉ names) l = []).
    { induction l as [|nc l IH]; intros names Hall; [done|].
      rewrite filter_cons_False by (intros Hno; apply Hno, Hall; by left).
      apply IH. intros nc' Hnc'. apply Hall. by right. }
    apply Hnone. intros nc Hnc. apply list_elem_of_fmap. by exists nc.
Qed.

End Worker.
End ServiceWorkerFacts.

(** ** Search *)

Section SearchFacts.
Context {string_methods : StringMethods}.

Lemma append_cons (a : ascii) (s t : string) :
  String a s +:+ t = String a (s +:+ t).
Proof. reflexivity. Qed.

Lemma prefix_spec (needle hay : string) :
  String.prefix needle hay = true ↔ ∃ post, hay = needle +:+ post.
Proof.
  revert hay. induction needle as [|a needle IH]; intros hay.
  - split; [intros _; by exists hay | intros _; by destruct hay].
  - destruct hay as [|b hay]; simpl.
    + split; [done|]. intros [post E]. rewrite append_cons in E. done.
    + destruct (Ascii.ascii_dec a b) as [->|Hne].
      * rewrite IH. split; intros [post E]; exists post.
        -- by rewrite append_cons, E.
        -- rewrite append_cons in E. by injection E.
      * split; [done|]. intros [post E]. rewrite append_cons in E.
        injection E as E1 _. by destruct Hne.
Qed.

(** [hay.includes(needle)] holds exactly when [needle] occurs in [hay]. *)
Lemma str_includes_spec (needle hay : string) :
  str_includes needle hay = true ↔
  ∃ pre post, hay = pre +:+ needle +:+ post.
Proof.
  induction hay as [|b hay IH].
  - cbn [str_includes]. rewrite orb_false_r, prefix_spec. split.
    + intros [post E]. by exists "", post.
    + intros (pre & post & E). destruct pre as [|a pre].
      * by exists post.
      * rewrite append_cons in E. done.
  - cbn [str_includes]. rewrite orb_true_iff, prefix_spec, IH. split.
    + intros [[post E]|(pre & post & E)].
      * by exists "", post.
      * exists (String b pre), post. by rewrite append_cons, E.
    + intros (pre & post & E). destruct pre as [|a pre].
      * left. by exists post.
      * right. exists pre, post. rewrite append_cons in E. by injection E.
Qed.

(** X22. The search view.  [handleSearch(query)] leaves the catalog as
    it is and makes the view a sublist of it, in catalog order: the
    whole catalog for a blank query, else exactly the songs whose
    lower-cased title or artist contains the lower-cased query.
    Searching again for the same text changes nothing; and when nothing
    matches, the view is empty and [playSong] navigates the whole
    catalog. *)
Theorem handleSearch_view (st : State) (query : string) :
  let st' := handleSearch st query in
  songs st' = songs st ∧
  filteredSongs st' `sublist_of` songs st ∧
  (trim query = "" → filteredSongs st' = songs st) ∧
  (trim query ≠ "" →
   ∀ s, s ∈ filteredSongs st' ↔
        s ∈ songs st ∧
        ((∃ pre post,
            toLowerCase (Song.title s)
              = pre +:+ toLowerCase query +:+ post) ∨
         (∃ pre post,
            toLowerCase (Song.artist s)
              = pre +:+ toLowerCase query +:+ post))) ∧
  handleSearch st' query = st' ∧
  (filteredSongs st' = [] → selected st' = songs st).
Proof.
  intros st'. subst st'. unfold handleSearch.
  case_bool_decide as Hq; simpl.
  - split_and!; [done | done | done | done | |].
    + by destruct st.
    + unfold selected. simpl. intros ->. by case_bool_decide.
  - split_and!.
    + done.
    + apply sublist_filter.
    + done.
    + intros _ s. rewrite list_elem_of_filter.
      rewrite <- !str_includes_spec. rewrite Is_true_true, orb_true_iff.
      tauto.
    + destruct st; simpl. done.
    + unfold selected. simpl. intros ->.
      rewrite bool_decide_eq_false_2; [done | simpl; lia].
Qed.

End SearchFacts.

(** * Closed runs on the reference host *)

Import Host Demo.

(** The closed instances are those the constructor and the catalog fetch
    produce from an empty store. *)
Example loaded_from_empty_store :
  construct ∅ = inr fresh ∧ songsFetched fresh (Some catalog) = loaded.
Proof. split; reflexivity. Qed.

(** A property of every element of a closed list. *)
Ltac each_element := apply Forall_forall; repeat constructor; done.

(** ** Library state *)

(** C10 run: liking [beta] appends it, liking again restores the empty
    list; an id outside the catalog changes nothing. *)
Lemma toggleSongLike_twice_witness :
  likedSongs (toggleSongLike loaded "s2") = [beta] ∧
  likedSongs (toggleSongLike (toggleSongLike loaded "s2") "s2") = [] ∧
  toggleSongLike loaded "s9" = loaded.
Proof.
  destruct (toggleSongLike_twice loaded "s2") as [_ Hfound].
  destruct (Hfound beta) as (_ & Hnew & _); [reflexivity|].
  destruct Hnew as [H1 H2]; [apply not_elem_of_nil|].
  destruct (toggleSongLike_twice loaded "s9") as [Hmissing _].
  split; [exact H1|]. split; [exact H2|].
  apply Hmissing. reflexivity.
Defined.

(** Unliking and liking [beta] again moves it to the end; [alpha] and
    [gamma] keep their order. *)
Example toggle_twice_liked_song :
  let st := set_likedSongs [alpha; beta; gamma] loaded in
  likedSongs (toggleSongLike st "s2") = [alpha; gamma] ∧
  likedSongs (toggleSongLike (toggleSongLike st "s2") "s2")
    = [alpha; gamma; beta].
Proof. split; by vm_compute. Qed.

(** C9 run: the first call appends, repeating the pair adds nothing, and
    an unknown playlist or song changes nothing. *)
Lemma addToPlaylist_no_duplicates_witness :
  playlists (addToPlaylist (with_playlist []) "p1" "s1")
    = [Playlist.mk "p1" "Road" ["s1"]] ∧
  addToPlaylist (with_playlist ["s1"]) "p1" "s1" = with_playlist ["s1"] ∧
  addToPlaylist (with_playlist []) "p7" "s1" = with_playlist [] ∧
  addToPlaylist (with_playlist []) "p1" "s9" = with_playlist [] ∧
  Forall (λ p, NoDup (Playlist.songs p))
    (playlists
       (addAllToPlaylist (with_playlist []) (replicate 3 ("p1", "s1")))).
Proof.
  destruct (addToPlaylist_no_duplicates (with_playlist []) "p1" "s1")
    as (_ & _ & _ & Hadd & Hrun).
  destruct (Hadd 0%nat (Playlist.mk "p1" "Road" []) alpha) as [Hnew _];
    [reflexivity | reflexivity | apply not_elem_of_nil |].
  destruct (addToPlaylist_no_duplicates (with_playlist ["s1"]) "p1" "s1")
    as (_ & _ & Hpresent & _).
  destruct (addToPlaylist_no_duplicates (with_playlist []) "p7" "s1")
    as (Hnolist & _).
  destruct (addToPlaylist_no_duplicates (with_playlist []) "p1" "s9")
    as (_ & Hnosong & _).
  split; [exact Hnew|].
  split; [apply (Hpresent 0%nat (Playlist.mk "p1" "Road" ["s1"]));
          [reflexivity | by left]|].
  split; [apply Hnolist; each_element|].
  split; [apply Hnosong; each_element|].
  destruct Hrun as [_ Hsame].
  - repeat constructor.
  - apply (Hsame 3%nat).
Defined.

(** C5 run: a catalog song is dropped from the playlist. *)
Lemma removeFromPlaylist_guarded_witness :
  playlists (removeFromPlaylist (with_playlist ["s1"; "s2"]) "p1" "s1")
    = [Playlist.mk "p1" "Road" ["s2"]].
Proof.
  destruct (removeFromPlaylist_guarded (with_playlist ["s1"; "s2"]) "p1" "s1")
    as (_ & _ & Hdrop).
  destruct (Hdrop 0%nat (Playlist.mk "p1" "Road" ["s1"; "s2"]) alpha)
    as [Hnew _]; [reflexivity | reflexivity |].
  exact Hnew.
Defined.

(** C5 refuted as stated: the playlist lists the id ["s9"], which is in
    no catalog song; [removeFromPlaylist] leaves it there. *)
Lemma removeFromPlaylist_keeps_dangling_id :
  let st := with_playlist ["s1"; "s9"] in
  ("s9" ∉ Song.id <$> songs st) ∧
  removeFromPlaylist st "p1" "s9" = st ∧
  playlists (removeFromPlaylist st "p1" "s9")
    = [Playlist.mk "p1" "Road" ["s1"; "s9"]].
Proof.
  split; [|split; reflexivity].
  apply (bool_decide_unpack _). by vm_compute.
Qed.

(** C7 run: " Rock " is stored as "Rock"; "ROCK" is then refused and one
    playlist is stored; a blank name is refused. *)
Lemma createPlaylist_validation_witness :
  let r1 := createPlaylist loaded " Rock " clock in
  let r2 := createPlaylist r1.1 "ROCK" (clock + 5000) in
  r1.2 = Created ∧ r2.2 = DuplicateName ∧
  playlists r2.1 = [Playlist.mk "1700000000000" "Rock" []] ∧
  createPlaylist loaded "   " clock = (loaded, EmptyName).
Proof.
  destruct (createPlaylist_validation loaded " Rock " clock)
    as (_ & _ & _ & Htwice).
  destruct (Htwice "ROCK" (clock + 5000)) as (H1 & H2 & H3 & _).
  - vm_compute. discriminate.
  - vm_compute. discriminate.
  - reflexivity.
  - intros p Hp. by apply elem_of_nil in Hp.
  - destruct (createPlaylist_validation loaded "   " clock) as (Hempty & _).
    split; [exact H1|]. split; [exact H2|]. split; [exact H3|].
    apply Hempty. reflexivity.
Defined.

(** C8 run: two creations one millisecond apart get distinct ids. *)
Lemma createPlaylist_ids_distinct_witness :
  NoDup
    (Playlist.id <$>
       playlists
         (createAllPlaylists loaded [("Rock", clock); ("Jazz", clock + 1)])).
Proof.
  destruct (createPlaylist_ids_distinct loaded) as [_ Hrun].
  apply (Hrun [("Rock", clock); ("Jazz", clock + 1)]).
  - reflexivity.
  - repeat constructor.
Defined.

(** C8 refuted as stated: two successful creations within the same
    millisecond store two playlists with the same id. *)
Lemma createPlaylist_same_millisecond :
  let r1 := createPlaylist loaded "Rock" clock in
  let r2 := createPlaylist r1.1 "Jazz" clock in
  r1.2 = Created ∧ r2.2 = Created ∧
  Playlist.id <$> playlists r2.1 = ["1700000000000"; "1700000000000"] ∧
  ¬ NoDup (Playlist.id <$> playlists r2.1).
Proof.
  split; [reflexivity|]. split; [reflexivity|]. split; [reflexivity|].
  intros Hnd. vm_compute in Hnd. apply NoDup_cons in Hnd as [Hnotin _].
  apply Hnotin. by left.
Qed.

(** ** Playback *)

Lemma catalog_ids_distinct : NoDup (Song.id <$> catalog).
Proof. apply (bool_decide_unpack _). by vm_compute. Qed.

(** C3 run: on the catalog [alpha, beta, gamma], from index 0, next goes
    to index 1 and plays [beta], previous goes to index 2 and plays
    [gamma], and three presses of next visit 1, 2 and 0. *)
Lemma ring_navigation_witness :
  let st := playSong loaded alpha in
  currentIndex st = 0 ∧
  (∃ st1 st2 st3,
     nextSong st = Returned st1 ∧ nextSong st1 = Returned st2 ∧
     nextSong st2 = Returned st3 ∧
     currentIndex st1 = 1 ∧ currentIndex st2 = 2 ∧ currentIndex st3 = 0 ∧
     currentSong st1 = Some beta) ∧
  (∃ st', previousSong st = Returned st' ∧
          currentIndex st' = 2 ∧ currentSong st' = Some gamma) ∧
  (∃ st', nextSongs 3 st = Returned st' ∧ currentIndex st' = 0).
Proof.
  intros st.
  destruct (ring_navigation st) as [_ Hring].
  destruct (Hring 3 0) as (Hnext & Hprev & Hround & _);
    [reflexivity | reflexivity | lia | reflexivity
    | exact catalog_ids_distinct |].
  destruct Hnext as (s1 & st1 & Hs1 & Hn1 & _ & Hi1 & Hc1 & Hp1).
  destruct Hprev as (s2 & st' & Hs2 & Hn2 & _ & Hi2 & Hc2 & _).
  vm_compute in Hs1. injection Hs1 as <-.
  vm_compute in Hs2. injection Hs2 as <-.
  split; [reflexivity|]. split; [|split].
  - exists st1.
    eexists (playSong (set_currentIndex 2 st1) gamma).
    eexists (playSong (set_currentIndex 0
               (playSong (set_currentIndex 2 st1) gamma)) alpha).
    split; [exact Hn1|].
    injection Hn1 as <-.
    split; [by vm_compute|]. split; [by vm_compute|].
    split; [exact Hi1|]. split; [by vm_compute|]. split; [by vm_compute|].
    exact Hc1.
  - exists st'. split; [exact Hn2|]. split; [exact Hi2 | exact Hc2].
  - exact Hround.
Defined.

(** C3 refuted as stated: [beta] is played from the full list, then the
    search box filters the view down to [gamma].  The current playlist
    still has three songs and the index is 1.  A press of next plays
    [gamma], the song at index 2, and ends with index 0 on a current
    playlist of one song; after three presses the index is 0, not 1. *)
Lemma nextSong_after_search :
  let st := handleSearch (playSong loaded beta) "gam" in
  length (currentPlaylist st) = 3%nat ∧ currentIndex st = 1 ∧
  (∃ st', nextSong st = Returned st' ∧
          currentSong st' = Some gamma ∧
          currentPlaylist st' = [gamma] ∧
          currentIndex st' = 0 ∧
          currentIndex st' ≠ (1 + 1) `mod` 3) ∧
  (∃ st', nextSongs 3 st = Returned st' ∧
          currentIndex st' = 0 ∧ currentIndex st' ≠ currentIndex st).
Proof.
  split; [by vm_compute|]. split; [by vm_compute|]. split.
  - eexists. split; [by vm_compute|].
    split; [by vm_compute|]. split; [by vm_compute|].
    split; by vm_compute.
  - eexists. split; [by vm_compute|]. split; by vm_compute.
Qed.

(** C2 run: playing a song of the selected list, and then stepping
    through it, keeps the current song at the current index. *)
Lemma playback_invariant_witness :
  consistent (playSong loaded beta) ∧
  (∃ st', nextSong (playSong loaded beta) = Returned st' ∧ consistent st') ∧
  (∃ st', previousSong (playSong loaded beta) = Returned st' ∧
          consistent st').
Proof.
  destruct (playback_invariant loaded catalog_ids_distinct) as [Hplay _].
  destruct (playback_invariant (playSong loaded beta) catalog_ids_distinct)
    as [_ Hstep].
  split.
  - apply Hplay. right. left.
  - apply Hstep; [discriminate | reflexivity | by vm_compute].
Defined.

(** C2 refuted as stated.  With the view filtered down to [alpha], the
    liked song [beta] is played from the liked list: the current
    playlist is [[alpha]] and the index is -1.  And a resumption from a
    snapshot of [beta] on a fresh instance makes [beta] the current song
    while the current playlist is still empty. *)
Lemma current_song_outside_playlist :
  (let st := handleSearch (toggleSongLike loaded "s2") "alp" in
   let st' := playSong st beta in
   likedSongs st = [beta] ∧ currentSong st' = Some beta ∧
   currentPlaylist st' = [alpha] ∧ currentIndex st' = -1 ∧
   ¬ consistent st') ∧
  (let st := with_snapshot 299000 loaded in
   let st' := (resumePlaybackIfNeeded st clock).1 in
   currentSong st' = Some beta ∧ currentPlaylist st' = [] ∧
   ¬ consistent st').
Proof.
  split.
  - split; [by vm_compute|]. split; [by vm_compute|].
    split; [by vm_compute|]. split; [by vm_compute|].
    intros Hc. destruct (Hc beta) as [[Hge _] _]; [by vm_compute|].
    vm_compute in Hge. by apply Hge.
  - assert (E : currentSong
                  (resumePlaybackIfNeeded (with_snapshot 299000 loaded)
                     clock).1 = Some beta) by (by vm_compute).
    split; [exact E|]. split; [by vm_compute|].
    intros Hc. destruct (Hc beta E) as [[_ Hlt] _].
    vm_compute in Hlt. discriminate.
Qed.

(** ** Resumption and startup *)

(** C4 run: with the catalog loaded, a snapshot of [beta] saved 299 s ago
    installs [beta] and registers the listener that plays it; saved 301 s
    ago it changes nothing. *)
Lemma resume_freshness_gate_witness :
  (let r := resumePlaybackIfNeeded (with_snapshot 299000 loaded) clock in
   r.2 = ResumeSong beta (snapshot (clock - 299000)) ∧
   currentSong r.1 = Some beta ∧
   Audio.src (audio r.1) = "beta.mp3") ∧
  resumePlaybackIfNeeded (with_snapshot 301000 loaded) clock
    = (with_snapshot 301000 loaded, GateClosed).
Proof.
  split.
  - destruct (resume_freshness_gate (with_snapshot 299000 loaded) clock)
      as [_ Hgate].
    destruct (Hgate (JSON_stringify (snapshot (clock - 299000)))
                (snapshot (clock - 299000)))
      as (_ & _ & _ & _ & Hresume & _);
      [reflexivity | discriminate | by vm_compute | by vm_compute
      | by vm_compute |].
    destruct (Hresume eq_refl) with (song := beta)
      as (H1 & _ & H2 & H3 & _);
      [by vm_compute | by vm_compute | discriminate |].
    split; [exact H1|]. split; [exact H2 | exact H3].
  - destruct (resume_freshness_gate (with_snapshot 301000 loaded) clock)
      as [_ Hgate].
    destruct (Hgate (JSON_stringify (snapshot (clock - 301000)))
                (snapshot (clock - 301000)))
      as (_ & _ & Hold & _);
      [reflexivity | discriminate | by vm_compute | by vm_compute
      | by vm_compute |].
    apply Hold. reflexivity.
Defined.

(** C4 refuted as stated, with the catalog loaded and not empty.  The
    store of a reloaded page holds a snapshot that was playing 299 s ago,
    of a song the catalog does not hold (it was played from a stored
    liked copy, or the catalog changed): the constructor and the catalog
    load succeed, no song is current, the focus handler arms its timer,
    the gate is passed, and [audio.play()] is not called and no listener
    is registered.  Nor is anything attempted when the snapshot's song is
    the current one and is not paused: blur while [beta] plays, focus 299
    s later. *)
Lemma resume_not_attempted_behind_gate :
  (let text := JSON_stringify (departed (clock - 299000)) in
   let store : gmap string string := {[ "groovePlaybackState" := text ]} in
   let st := songsFetched (set_localStorage store fresh) (Some catalog) in
   construct store = inr (set_localStorage store fresh) ∧
   songsLoaded st = true ∧ songs st = catalog ∧ currentSong st = None ∧
   localStorage st !! "groovePlaybackState" = Some text ∧
   JSON_parse text = Some (departed (clock - 299000)) ∧
   Snapshot.isPlaying (departed (clock - 299000)) = true ∧
   clock - Snapshot.timestamp (departed (clock - 299000)) = 299000 ∧
   find (λ s, Song.id s = Snapshot.songId (departed (clock - 299000)))
     (songs st) = None ∧
   handleWindowFocus st = true ∧
   focusTimerFired st clock = (st, NothingToResume) ∧
   attempted (focusTimerFired st clock).2 = false ∧
   gate_passed (focusTimerFired st clock).2 = true) ∧
  (let st := handleWindowBlur Sessions.playing_beta (clock - 299000) in
   let text := JSON_stringify (snapshot (clock - 299000)) in
   songsLoaded st = true ∧ songs st = catalog ∧
   currentSong st = Some beta ∧ Audio.paused (audio st) = false ∧
   localStorage st !! "groovePlaybackState" = Some text ∧
   JSON_parse text = Some (snapshot (clock - 299000)) ∧
   Snapshot.isPlaying (snapshot (clock - 299000)) = true ∧
   clock - Snapshot.timestamp (snapshot (clock - 299000)) = 299000 ∧
   handleWindowFocus st = true ∧
   focusTimerFired st clock = (st, NothingToResume) ∧
   attempted (focusTimerFired st clock).2 = false ∧
   gate_passed (focusTimerFired st clock).2 = true).
Proof. split; repeat split; by vm_compute. Qed.

(** C6 run: the text ["{"] under the key of the liked songs makes the
    constructor raise; without the keys it builds the empty
    collections. *)
Lemma construct_malformed_raises_witness :
  construct {["grooveLikedSongs" := "{"]} = inl SyntaxError ∧
  construct {["groovePlaylists" := "[{"]} = inl SyntaxError ∧
  ∃ st, construct ∅ = inr st ∧ likedSongs st = [] ∧ playlists st = [].
Proof.
  destruct (construct_malformed_raises {["grooveLikedSongs" := "{"]})
    as (Hliked & _).
  destruct (construct_malformed_raises {["groovePlaylists" := "[{"]})
    as (_ & Hlists & _).
  destruct (construct_malformed_raises ∅) as (_ & _ & Hempty).
  split; [apply (Hliked "{"); [discriminate | reflexivity | by vm_compute]|].
  split; [apply (Hlists "[{"); [discriminate | reflexivity | by vm_compute]|].
  apply Hempty; [by vm_compute | by vm_compute | by left | by left].
Defined.

(** ** Superseded acquisitions *)

(** C1 refuted as stated, in the caching variant: [alpha] is played,
    then [beta] before the fetch of [alpha] is over; both calls are
    suspended at their fetch.  The fetch of [beta] ends first, the fetch
    of [alpha] last: the current song is [beta] and the audio source and
    the cache slot are those of [alpha].  When the late fetch fails
    instead, the source is that of [alpha] all the same. *)
Lemma late_fetch_overwrites_source :
  let r1 := Cached.playSong loaded alpha in
  let r2 := Cached.playSong r1.1 beta in
  let st3 := Cached.fetchSettled r2.1 beta (Some "blob:beta") in
  let st4 := Cached.fetchSettled st3 alpha (Some "blob:alpha") in
  let st4' := Cached.fetchSettled st3 alpha None in
  r1.2 = Cached.Fetching ∧ r2.2 = Cached.Fetching ∧
  currentSong st3 = Some beta ∧ Audio.src (audio st3) = "blob:beta" ∧
  currentSong st4 = Some beta ∧ Audio.src (audio st4) = "blob:alpha" ∧
  localStorage st4 !! Cached.tempSongCacheKey
    = Some (JSON_stringify (CacheEntry.mk "s1" "blob:alpha")) ∧
  currentSong st4' = Some beta ∧ Audio.src (audio st4') = "alpha.mp3".
Proof. repeat split; by vm_compute. Qed.

(** ** More closed runs *)

Import Sessions.

(** A closed fact that is decided by evaluation. *)
Ltac by_evaluation := apply (bool_decide_unpack _); by vm_compute.

(** X1 run: deleting by an id no playlist has keeps the collection. *)
Lemma deletePlaylist_removes_witness :
  playlists (deletePlaylist (with_playlist ["s1"]) "p9")
    = [Playlist.mk "p1" "Road" ["s1"]] ∧
  playlists (deletePlaylist (with_playlist ["s1"]) "p1") = [].
Proof.
  destruct (deletePlaylist_removes (with_playlist ["s1"]) "p9")
    as (_ & _ & Hsame & _).
  split; [apply Hsame; each_element | by vm_compute].
Defined.

(** X2 run. *)
Lemma create_then_delete_witness :
  playlists (deletePlaylist (createPlaylist loaded "Rock" clock).1
               "1700000000000")
    = [].
Proof.
  apply (create_then_delete loaded "Rock" clock).
  intros p Hp. by apply elem_of_nil in Hp.
Defined.

(** X3 run. *)
Lemma add_then_remove_witness :
  playlists
    (removeFromPlaylist (addToPlaylist (with_playlist ["s1"]) "p1" "s2")
       "p1" "s2")
    = [Playlist.mk "p1" "Road" ["s1"]].
Proof.
  apply (add_then_remove (with_playlist ["s1"]) "p1" "s2" 0%nat
           (Playlist.mk "p1" "Road" ["s1"]) beta);
    [reflexivity | reflexivity | by_evaluation].
Defined.

(** X4 run: the id ["s9"] is in no catalog song and is not shown. *)
Lemma playlistSongs_filters_dangling_witness :
  playlistSongs loaded (Playlist.mk "p1" "Road" ["s3"; "s9"; "s1"])
    = [gamma; alpha] ∧
  length (playlistSongs loaded (Playlist.mk "p1" "Road" ["s3"; "s1"]))
    = 2%nat.
Proof.
  split; [by vm_compute|].
  destruct (playlistSongs_filters_dangling loaded
              (Playlist.mk "p1" "Road" ["s3"; "s1"])) as (_ & _ & Hlen).
  apply Hlen. apply Forall_forall. repeat constructor; by vm_compute.
Defined.

(** X5 run: with [beta] current, a click adds it and a second click, on
    the refreshed option, removes it. *)
Lemma optionClicked_flips_witness :
  let st := playSong (with_playlist ["s1"]) beta in
  let p := Playlist.mk "p1" "Road" ["s1"] in
  ∃ st',
    optionClicked st p (optionFlag st p) = Returned st' ∧
    playlists st' = [Playlist.mk "p1" "Road" ["s1"; "s2"]].
Proof.
  intros st p.
  destruct (optionClicked_flips st 0%nat p beta beta)
    as (st' & p' & Hclick & _); [reflexivity..|].
  exists st'. split; [exact Hclick|].
  vm_compute in Hclick. injection Hclick as <-. by vm_compute.
Defined.

(** X6 run. *)
Lemma names_distinct_run_witness : names_distinct (run loaded session).
Proof. apply names_distinct_run. constructor. Defined.

(** X7 run. *)
Lemma liked_wf_run_witness : liked_wf (run loaded session).
Proof.
  apply liked_wf_run. split; [constructor|].
  intros s Hs. by apply elem_of_nil in Hs.
Defined.

(** X8 run. *)
Lemma tracks_wf_run_witness : tracks_wf (run loaded session).
Proof. apply tracks_wf_run. intros p Hp. by apply elem_of_nil in Hp. Defined.

(** X9 run: the run starts from what [saveData] leaves. *)
Lemma persisted_run_witness : persisted (run (saveData loaded) session).
Proof. apply persisted_run. split; reflexivity. Defined.

(** X10 run. *)
Lemma run_never_raises_witness :
  raises loaded session = false ∧ -1 ≤ currentIndex (run loaded session).
Proof. apply run_never_raises. by vm_compute. Defined.

(** X11 run: a song of the view, and a song outside it. *)
Lemma playSong_index_first_witness :
  currentIndex (playSong loaded gamma) = 2 ∧
  currentIndex (playSong (handleSearch loaded "alp") gamma) = -1.
Proof.
  split; [by vm_compute|].
  destruct (playSong_index_first (handleSearch loaded "alp") gamma)
    as (_ & _ & Hout & _).
  apply Hout. apply (bool_decide_unpack _). by vm_compute.
Defined.

(** X12 run. *)
Lemma next_previous_inverse_witness :
  ∃ st1 st2,
    nextSong (playSong loaded gamma) = Returned st1 ∧
    previousSong st1 = Returned st2 ∧
    currentIndex st1 = 0 ∧ currentIndex st2 = 2 ∧
    currentSong st2 = Some gamma.
Proof.
  destruct (next_previous_inverse (playSong loaded gamma) gamma)
    as [(st1 & st2 & H1 & H2 & H3 & H4 & _) _];
    [reflexivity | exact catalog_ids_distinct | reflexivity |].
  exists st1, st2. split; [exact H1|]. split; [exact H2|].
  split; [|split; [exact H3 | exact H4]].
  vm_compute in H1. injection H1 as <-. reflexivity.
Defined.

(** X13 run. *)
Lemma togglePlayPause_twice_witness :
  togglePlayPause loaded = loaded ∧
  Audio.paused (audio (togglePlayPause (playSong loaded beta))) = true.
Proof.
  destruct (togglePlayPause_twice loaded) as (Hnone & _).
  destruct (togglePlayPause_twice (playSong loaded beta)) as (_ & Hflip & _).
  split; [by apply Hnone | apply Hflip; by eexists].
Defined.

(** X14 run: saved while playing, resumed four minutes later after a
    reload, on a track of ten seconds. *)
Lemma save_then_resume_witness :
  let stored := localStorage (savePlaybackState playing_beta clock) in
  let r :=
    resumePlaybackIfNeeded (set_localStorage stored loaded)
      (clock + 240000) in
  currentSong r.1 = Some beta ∧
  Audio.src (audio r.1) = "beta.mp3" ∧
  (Audio.currentTime
     (audio (handleLoadedMetadata r.1 (snapshot clock) 10%Q)) <= 10)%Q.
Proof.
  intros stored r.
  destruct (save_then_resume playing_beta (set_localStorage stored loaded)
              beta beta clock (clock + 240000))
    as [Hresume _];
    [reflexivity | by vm_compute | by vm_compute | reflexivity
    | reflexivity | reflexivity | discriminate |].
  destruct Hresume as (_ & H1 & _ & H2 & _ & H3);
    [reflexivity | reflexivity | by vm_compute |].
  split; [exact H1|]. split; [exact H2|].
  destruct (H3 10%Q) as (_ & _ & Hle). exact Hle.
Defined.

(** X15 run. *)
Lemma persisted_then_construct_witness :
  let st := toggleSongLike (createPlaylist loaded "Rock" clock).1 "s2" in
  ∃ st', construct (localStorage st) = inr st' ∧
         likedSongs st' = [beta] ∧
         playlists st' = [Playlist.mk "1700000000000" "Rock" []].
Proof.
  intros st.
  destruct (persisted_then_construct st)
    as (st' & Hc & Hl & Hp & _);
    [split; reflexivity | by vm_compute | by vm_compute
    | by vm_compute | by vm_compute |].
  exists st'. split; [exact Hc|]. split; [exact Hl | exact Hp].
Defined.

(** X23 run. *)
Lemma blur_then_focus_witness :
  (focusTimerFired (handleWindowBlur playing_beta clock) (clock + 100)).1
    = handleWindowBlur playing_beta clock.
Proof.
  destruct (blur_then_focus playing_beta beta clock (clock + 100))
    as (H & _); [reflexivity | by vm_compute |].
  exact H.
Defined.

(** X16 run. *)
Lemma cache_slot_holds_last_fetch_witness :
  let st1 := Cached.fetchSettled loaded alpha (Some "blob:alpha") in
  (Cached.playSong st1 alpha).2 = Cached.Playing ∧
  Audio.src (audio (Cached.playSong st1 alpha).1) = "blob:alpha" ∧
  (Cached.playSong st1 beta).2 = Cached.Fetching.
Proof.
  intros st1.
  destruct (cache_slot_holds_last_fetch loaded alpha beta
              "blob:alpha" "blob:beta")
    as (H1 & H2 & _ & _ & H3 & _);
    [by vm_compute | by vm_compute | by vm_compute | by vm_compute
    | discriminate |].
  split; [exact H1|]. split; [exact H2 | exact H3].
Defined.

(** X22 run: the query of the specification's example. *)
Lemma handleSearch_view_witness :
  filteredSongs (handleSearch loaded "LO") = [beta; gamma] ∧
  filteredSongs (handleSearch loaded "  ") = catalog ∧
  selected (handleSearch loaded "zzz") = catalog.
Proof.
  destruct (handleSearch_view loaded "  ") as (_ & _ & Hblank & _).
  destruct (handleSearch_view loaded "zzz") as (_ & _ & _ & _ & _ & Hnone).
  split; [by vm_compute|]. split.
  - apply Hblank. reflexivity.
  - apply Hnone. by vm_compute.
Defined.

(** ** The service worker on closed traffic *)

Import ServiceWorker Traffic.

(** X18 run: the track is answered by the network and not stored. *)
Lemma audio_never_cached_witness :
  onFetch site installed track (Some (ok "mp3"))
    = (Some (ok "mp3"), installed) ∧
  onFetch site installed track None
    = (Some (mkResponse 404 "Audio file unavailable"), installed).
Proof.
  destruct (ServiceWorkerFacts.audio_never_cached site installed)
    as [Haudio _].
  split; apply Haudio; by vm_compute.
Defined.

(** X19 run: after three requests the old cache and the static cache
    are as they were. *)
Lemma dynamic_cache_only_ok_witness :
  (STATIC_CACHE, {[ "https://groove.example/index.html" := ok "<html>" ]})
    ∈ onFetches site installed
        [ (sheet, Some (ok "css")); (track, Some (ok "mp3"));
          (page, None) ].
Proof.
  destruct (ServiceWorkerFacts.dynamic_cache_only_ok site installed
              [ (sheet, Some (ok "css")); (track, Some (ok "mp3"));
                (page, None) ]) as [Hother _].
  apply Hother; [discriminate|]. right. left.
Defined.

(** X20 run: the style sheet is fetched once and then served offline;
    the page is served from the static cache. *)
Lemma cached_response_replayed_witness :
  let first := onFetch site installed sheet (Some (ok "css")) in
  onFetch site first.2 sheet None = (Some (ok "css"), first.2) ∧
  onFetch site installed page None = (Some (ok "<html>"), installed).
Proof.
  intros first.
  destruct (ServiceWorkerFacts.cached_response_replayed site installed
              sheet) as [_ Hmiss]; [by vm_compute|].
  destruct (ServiceWorkerFacts.cached_response_replayed site installed
              page) as [Hhit _]; [by vm_compute|].
  split.
  - destruct (Hmiss (ok "css")) as [_ Hreplay];
      [by vm_compute | reflexivity | left; discriminate |].
    apply Hreplay.
  - apply Hhit. by vm_compute.
Defined.

(** X21 run: the cache of the older version is deleted. *)
Lemma activate_keeps_current_witness :
  onActivate installed
    = [ (STATIC_CACHE,
         {[ "https://groove.example/index.html" := ok "<html>" ]}) ] ∧
  cachesMatch (onActivate (onActivate installed))
    "https://groove.example/index.html"
    = Some (ok "<html>").
Proof.
  destruct (ServiceWorkerFacts.activate_keeps_current (onActivate installed))
    as (_ & _ & _ & Hmatch & _).
  split; [by vm_compute|].
  rewrite Hmatch; [by vm_compute|].
  intros nc Hnc. apply list_elem_of_singleton in Hnc. subst nc. by left.
Defined.
